(** * The crawl-and-merge engine of the market price crawler

    A shallow embedding of [crawler/index.js] (the incremental crawler) and of
    the history crawler (the second crawler script of the repository), with
    the properties of the engine that the specification states.

    JavaScript strings are sequences of UTF-16 code units: they are modelled
    as [list N].  The dataset [dataMap] (a JS [Map] from date key to the CSV
    lines of that date) is a [gmap]; the only place where the program looks
    at the order of the keys is [Array.from(dataMap.keys()).sort()], which
    does not depend on the insertion order. *)

From Stdlib Require Import ZArith NArith List Ascii String Lia.
From stdpp Require Import gmap list sorting.

Local Open Scope Z_scope.

(** ** JavaScript strings *)

Abbreviation jsstring := (list N).

(** An ASCII literal as a JS string. *)
Definition str (s : string) : jsstring :=
  map N_of_ascii (list_ascii_of_string s).

Module Ch.
Definition tab : N := 9.
Definition lf : N := 10.
Definition cr : N := 13.
Definition space : N := 32.
Definition dquote : N := 34.
Definition squote : N := 39.
Definition comma : N := 44.
Definition minus : N := 45.
Definition slash : N := 47.
Definition zero : N := 48.
Definition semicolon : N := 59.
End Ch.

(** The code units that [String.prototype.trim] strips: WhiteSpace and
    LineTerminator of ECMA-262. *)
Definition is_ws (c : N) : bool :=
  ((9 <=? c) && (c <=? 13) || (c =? 32) || (c =? 160) || (c =? 5760)
   || (8192 <=? c) && (c <=? 8202) || (c =? 8232) || (c =? 8233)
   || (c =? 8239) || (c =? 8287) || (c =? 12288) || (c =? 65279))%N.

Fixpoint trimStart (s : jsstring) : jsstring :=
  match s with
  | c :: s' => if is_ws c then trimStart s' else s
  | [] => []
  end.

Definition trimEnd (s : jsstring) : jsstring := rev (trimStart (rev s)).

(** [s.trim()] *)
Definition trim (s : jsstring) : jsstring := trimEnd (trimStart s).

(** [s.split(c)] for a separator of one code unit: never the empty array. *)
Fixpoint split (c : N) (s : jsstring) : list jsstring :=
  match s with
  | [] => [[]]
  | x :: s' =>
      if (x =? c)%N then [] :: split c s'
      else match split c s' with
           | h :: t => (x :: h) :: t
           | [] => [[x]]
           end
  end.

(** [l.join(sep)] *)
Fixpoint join (sep : jsstring) (l : list jsstring) : jsstring :=
  match l with
  | [] => []
  | [x] => x
  | x :: l' => x ++ sep ++ join sep l'
  end.

(** [s.indexOf(c)], [-1] when [c] does not occur. *)
Fixpoint indexOf (c : N) (s : jsstring) : Z :=
  match s with
  | [] => -1
  | x :: s' =>
      if (x =? c)%N then 0
      else let i := indexOf c s' in if i <? 0 then -1 else i + 1
  end.

(** [s.substring(0, n)] for [0 <= n]. *)
Definition substring0 (n : Z) (s : jsstring) : jsstring :=
  take (Z.to_nat n) s.

(** [s.replace(re, empty)] where [re] is the global pattern matching a single
    or a double quote: every quote character is removed. *)
Definition removeQuotes (s : jsstring) : jsstring :=
  List.filter (fun c => negb ((c =? Ch.squote) || (c =? Ch.dquote))%N) s.

(** [s.startsWith(p)] *)
Fixpoint startsWith (p s : jsstring) : bool :=
  match p, s with
  | [], _ => true
  | _ :: _, [] => false
  | a :: p', b :: s' => (a =? b)%N && startsWith p' s'
  end.

(** [s.padStart(n, c)] for a pad string of one code unit. *)
Definition padStart (n : nat) (c : N) (s : jsstring) : jsstring :=
  repeat c (n - length s) ++ s.

(** *** Numbers to strings *)

(** The decimal digits of a natural number, most significant first; the fuel
    bounds the number of digits. *)
Fixpoint digits_fuel (fuel : nat) (n : N) : list N :=
  match fuel with
  | O => []
  | S f =>
      if (n <? 10)%N then [n]
      else digits_fuel f (n / 10)%N ++ [(n mod 10)%N]
  end.

Definition digits (n : N) : list N := digits_fuel (S (N.to_nat (N.log2 n))) n.

(** [String(z)] for an integer [z] (template literals and [String()] agree). *)
Definition numToString (z : Z) : jsstring :=
  let ds := map (fun d => (Ch.zero + d)%N) (digits (Z.to_N (Z.abs z))) in
  if z <? 0 then Ch.minus :: ds else ds.

(** *** The order of [Array.prototype.sort] without a comparator

    The elements are compared as strings, code unit by code unit; a proper
    prefix comes first. *)
Fixpoint str_leb (a b : jsstring) : bool :=
  match a, b with
  | [], _ => true
  | _ :: _, [] => false
  | x :: a', y :: b' =>
      if (x <? y)%N then true
      else if (y <? x)%N then false
      else str_leb a' b'
  end.

Definition str_le (a b : jsstring) : Prop := str_leb a b = true.
Definition str_lt (a b : jsstring) : Prop := str_le a b /\ a <> b.

Global Instance str_le_dec a b : Decision (str_le a b).
Proof. unfold str_le. apply _. Defined.

(** [l.sort()] on an array of strings. *)
Definition sort (l : list jsstring) : list jsstring := merge_sort str_le l.

(** *** Truthiness

    [cheerio]'s [val()] gives [undefined] when no element matches, or when
    an [input] has no value attribute: [None]; for an [option] without value
    attribute it gives the text of the option.  [undefined] and the empty
    string are the falsy values that can occur. *)
Definition truthy (o : option jsstring) : bool :=
  match o with
  | Some (_ :: _) => true
  | _ => false
  end.

(** [a || b] *)
Definition js_or (a b : option jsstring) : option jsstring :=
  if truthy a then a else b.

(** [String(v)] as [URLSearchParams.append] applies it. *)
Definition formValue (o : option jsstring) : jsstring :=
  match o with
  | Some s => s
  | None => str "undefined"
  end.

(** ** csv-stringify

    The library is not part of the repository; this is its behaviour with the
    default options, the only ones the crawler uses: fields separated by a
    comma, records ended by a line feed, a field quoted when it holds a quote,
    a comma or a line feed, and a quote inside a field doubled. *)
Module Csv.
Definition needsQuote (f : jsstring) : bool :=
  existsb (fun c => (c =? Ch.dquote) || (c =? Ch.comma) || (c =? Ch.lf))%N f.

Definition escapeQuotes (f : jsstring) : jsstring :=
  flat_map (fun c => if (c =? Ch.dquote)%N then [Ch.dquote; Ch.dquote] else [c]) f.

Definition field (f : jsstring) : jsstring :=
  if needsQuote f then Ch.dquote :: escapeQuotes f ++ [Ch.dquote] else f.

Definition record (r : list jsstring) : jsstring :=
  join [Ch.comma] (map field r) ++ [Ch.lf].

(** [stringify(rows)] *)
Definition stringify (rows : list (list jsstring)) : jsstring :=
  concat (map record rows).
End Csv.

(** ** Dates

    A JS [Date] seen through its local-time getters, in a time zone without
    daylight saving: the calendar day and the milliseconds since local
    midnight.  [month] is zero-based as [getMonth()] is. *)
Record Date := mkDate {
  getFullYear : Z;
  getMonth : Z;
  getDate : Z;
  getTimeOfDay : Z
}.

Definition isLeap (y : Z) : bool :=
  (y mod 4 =? 0) && (negb (y mod 100 =? 0) || (y mod 400 =? 0)).

Definition daysInMonth (y m : Z) : Z :=
  if m =? 1 then (if isLeap y then 29 else 28)
  else if (m =? 3) || (m =? 5) || (m =? 8) || (m =? 10) then 30
  else 31.

Definition validDate (d : Date) : Prop :=
  0 <= getMonth d <= 11 /\
  1 <= getDate d <= daysInMonth (getFullYear d) (getMonth d) /\
  0 <= getTimeOfDay d < 86400000.

(** [d.setDate(d.getDate() - 1)]: the day before, at the same time of day. *)
Definition prevDay (d : Date) : Date :=
  if 1 <? getDate d then
    mkDate (getFullYear d) (getMonth d) (getDate d - 1) (getTimeOfDay d)
  else if 0 <? getMonth d then
    mkDate (getFullYear d) (getMonth d - 1)
           (daysInMonth (getFullYear d) (getMonth d - 1)) (getTimeOfDay d)
  else
    mkDate (getFullYear d - 1) 11 31 (getTimeOfDay d).

(** [d.setDate(d.getDate() - k)] *)
Definition minusDays (k : nat) (d : Date) : Date := Nat.iter k prevDay d.

(** A number that orders valid dates as their time values do. *)
Definition dayOrd (d : Date) : Z :=
  (getFullYear d * 12 + getMonth d) * 31 + getDate d.

Definition stamp (d : Date) : Z := dayOrd d * 86400000 + getTimeOfDay d.

(** [a >= b] on two [Date] objects compares their time values. *)
Definition Date_geb (a b : Date) : bool := stamp b <=? stamp a.

(** Helper to get ROC date *)
Definition getRocDate (date : Date) : jsstring :=
  let year := getFullYear date - 1911 in
  let month := padStart 2 Ch.zero (numToString (getMonth date + 1)) in
  let day := padStart 2 Ch.zero (numToString (getDate date)) in
  numToString year ++ [Ch.slash] ++ month ++ [Ch.slash] ++ day.

(** The calendar order of two days. *)
Definition chrono_lt (a b : Date) : Prop :=
  getFullYear a < getFullYear b \/
  (getFullYear a = getFullYear b /\
   (getMonth a < getMonth b \/
    (getMonth a = getMonth b /\ getDate a < getDate b))).

(** ** The source as the crawler sees it

    [cheerio] and [axios] are libraries: a page is what the crawler's
    selectors find in it, a response is its [set-cookie] header and its
    page. *)
Record OptionEl := mkOptionEl {
  opt_val : option jsstring;
  opt_text : jsstring
}.

Record Page := mkPage {
  (** [$('input[name=__VIEWSTATE]').val()] and the two others *)
  pg_viewstate : option jsstring;
  pg_viewstateGenerator : option jsstring;
  pg_eventValidation : option jsstring;
  (** the [option] elements under the elements matching
      [select[name$=DDL_Market]], and under [#ctl00_ContentPlaceHolder1_DDL_Market] *)
  pg_selectByName : list (list OptionEl);
  pg_selectById : list (list OptionEl);
  (** for each element of [$('table tr')], the text of each [td] under it *)
  pg_rows : list (list jsstring)
}.

Record Response := mkResponse {
  set_cookie : option (list jsstring);
  data : Page
}.

Record Market := mkMarket {
  val : jsstring;
  txt : jsstring
}.

(** The query of one market on one day: the [Cookie] header and the fields of
    the form that vary. *)
Record Request := mkRequest {
  rq_cookie : jsstring;
  rq_viewstate : jsstring;
  rq_viewstateGenerator : jsstring;
  rq_eventValidation : jsstring;
  rq_txtDate : jsstring;
  rq_market : jsstring
}.

(** The outside world: the answer to the initial [GET] and to the [n]-th
    [POST]; [None] when [axios] throws. *)
Record World := mkWorld {
  initial : option Response;
  post : nat -> Request -> option Response
}.

(** ** Session state *)
Record Session := mkSession {
  cookies : jsstring;
  viewstate : option jsstring;
  viewstateGenerator : option jsstring;
  eventValidation : option jsstring
}.

(** [hdr.map(c => c.split(';')[0]).join('; ')] *)
Definition captureCookies (hdr : list jsstring) : jsstring :=
  join [Ch.semicolon; Ch.space] (map (fun c => hd [] (split Ch.semicolon c)) hdr).

(** The state after the initial page. *)
Definition initSession (response : Response) : Session :=
  let cookies := match set_cookie response with
                 | Some hdr => captureCookies hdr
                 | None => []
                 end in
  mkSession cookies
            (pg_viewstate (data response))
            (pg_viewstateGenerator (data response))
            (pg_eventValidation (data response)).

(** The update of the state after a query ([// Update state]). *)
Definition refresh (res : Response) (s : Session) : Session :=
  let cookies := match set_cookie res with
                 | Some hdr => captureCookies hdr
                 | None => cookies s
                 end in
  mkSession cookies
            (js_or (pg_viewstate (data res)) (viewstate s))
            (js_or (pg_viewstateGenerator (data res)) (viewstateGenerator s))
            (js_or (pg_eventValidation (data res)) (eventValidation s)).

(** ** Markets ([// Detect Markets]) *)
Definition defaultMarkets : list Market :=
  [ mkMarket (str "1") [31532; 19968; 24066; 22580]%N;
    mkMarket (str "2") [31532; 20108; 24066; 22580]%N ].

Definition detectMarkets (pg : Page) : list Market :=
  let marketSelect :=
    if (length (pg_selectByName pg) =? 0)%nat then pg_selectById pg
    else pg_selectByName pg in
  let marketOptions :=
    flat_map (fun el =>
                match opt_val el with
                | Some v =>
                    if truthy (Some v) && negb (bool_decide (v = str "0"))
                    then [mkMarket v (opt_text el)] else []
                | None => []
                end)
             (concat marketSelect) in
  if (length marketOptions =? 0)%nat then defaultMarkets else marketOptions.

(** ** Extraction ([// Parse Table]) *)
Definition FV : jsstring := str "FV".

Fixpoint parseTable (rocDate : jsstring) (market : Market)
                    (trs : list (list jsstring)) : list (list jsstring) :=
  match trs with
  | [] => []
  | tr :: rest =>
      let cols := map trim tr in
      if (8 <=? length cols)%nat then
        let code := nth 0 cols [] in
        if startsWith FV code then
          [ rocDate; txt market; code;
            nth 1 cols []; nth 2 cols []; nth 3 cols []; nth 4 cols [];
            nth 5 cols []; nth 6 cols []; nth 7 cols [] ]
          :: parseTable rocDate market rest
        else parseTable rocDate market rest
      else parseTable rocDate market rest
  end.

(** One query: the request built from the session, and on success the
    refreshed session and the rows found. *)
Definition buildRequest (rocDate : jsstring) (market : Market) (s : Session) : Request :=
  mkRequest (cookies s)
            (formValue (viewstate s))
            (formValue (viewstateGenerator s))
            (formValue (eventValidation s))
            rocDate (val market).

Definition queryUnit (w : World) (n : nat) (rocDate : jsstring) (market : Market)
                     (s : Session) : option (Session * list (list jsstring)) :=
  match post w n (buildRequest rocDate market s) with
  | Some res => Some (refresh res s, parseTable rocDate market (pg_rows (data res)))
  | None => None
  end.

(** ** The output file

    The content of [OUTPUT_FILE], [None] when the file does not exist. *)
Abbreviation File := (option (list N)).

(** [fs.openSync(OUTPUT_FILE, 'w')]: the file is created or truncated. *)
Definition openSync_w (f : File) : File := Some [].

(** [fs.writeSync(fd, s)] on the descriptor, and [fs.appendFileSync]. *)
Definition writeSync (f : File) (s : jsstring) : File := Some (default [] f ++ s).
Definition appendFileSync (f : File) (s : jsstring) : File := Some (default [] f ++ s).

(** [fs.writeFileSync(OUTPUT_FILE, s)] *)
Definition writeFileSync (f : File) (s : jsstring) : File := Some s.

Definition headers : list jsstring :=
  [ str "Date"; str "Market"; str "Code"; str "Name"; str "Variety";
    str "High"; str "Mid"; str "Low"; str "Avg"; str "Volume" ].

(** ** The dataset: [dataMap], date to array of CSV lines *)
Abbreviation DataMap := (gmap (list N) (list (list N))).

(** [dataMap.has(k)] *)
Definition has (dm : DataMap) (k : jsstring) : bool :=
  bool_decide (is_Some (dm !! k)).

(** [if (!dataMap.has(k)) dataMap.set(k, [])] *)
Definition ensure (k : jsstring) (dm : DataMap) : DataMap :=
  if has dm k then dm else <[k := []]> dm.

(** [dataMap.get(k).push(line)]; the key is present wherever the crawler
    does this. *)
Definition push (k line : jsstring) (dm : DataMap) : DataMap :=
  alter (fun ls => ls ++ [line]) k dm.

(** [Array.from(dataMap.keys())] *)
Definition keys (dm : DataMap) : list jsstring := (map_to_list dm).*1.

(** [l.trim().length > 0], also the truth value of [l.trim()] *)
Definition nonBlank (l : jsstring) : bool := (0 <? length (trim l))%nat.

(** *** Reading the existing data ([// 1. Read existing data]) *)
Definition loadLine (dm : DataMap) (l : jsstring) : DataMap :=
  let line := trim l in
  let firstComma := indexOf Ch.comma line in
  if -1 <? firstComma then
    let date := removeQuotes (substring0 firstComma line) in
    push date line (ensure date dm)
  else dm.

Definition load (file : File) : DataMap :=
  match file with
  | Some content =>
      let lines := List.filter nonBlank (split Ch.lf content) in
      (* Skip header (index 0) *)
      fold_left loadLine (drop 1 lines) ∅
  | None => ∅
  end.

(** *** Merging the rows of one query ([if (rows.length > 0)]) *)
Definition absorb (rocDate : jsstring) (rows : list (list jsstring))
                  (dm : DataMap) : DataMap :=
  if (0 <? length rows)%nat then
    let csvString := trim (Csv.stringify rows) in
    let dm := ensure rocDate dm in
    let newLines := split Ch.lf csvString in
    fold_left (fun dm nl => if nonBlank nl then push rocDate (trim nl) dm else dm)
              newLines dm
  else dm.

(** *** Writing ([// 3. Sort and Write]) *)
Definition sortedDates (dm : DataMap) : list jsstring := rev (sort (keys dm)).

Definition flush (dm : DataMap) (file : File) : File :=
  let fd := openSync_w file in
  let fd := writeSync fd (Csv.stringify [headers]) in
  fold_left (fun fd date =>
               fold_left (fun fd line => writeSync fd (line ++ [Ch.lf]))
                         (default [] (dm !! date)) fd)
            (sortedDates dm) fd.

(** ** The incremental crawler, [index.js] *)
Record St := mkSt {
  dataMap : DataMap;
  session : Session;
  (** the number of queries sent, and their units in order *)
  requests : nat;
  units : list (list N * Market);
  hasNewData : bool
}.

(** The body of [for (const market of marketOptions)]: a failed query is
    logged and nothing else changes. *)
Definition processUnit (w : World) (rocDate : jsstring) (st : St) (market : Market) : St :=
  let sent := units st ++ [(rocDate, market)] in
  match queryUnit w (requests st) rocDate market (session st) with
  | Some (s', rows) =>
      mkSt (absorb rocDate rows (dataMap st)) s' (S (requests st)) sent
           (hasNewData st || (0 <? length rows)%nat)
  | None =>
      mkSt (dataMap st) (session st) (S (requests st)) sent (hasNewData st)
  end.

Definition processDate (w : World) (marketOptions : list Market)
                       (rocDate : jsstring) (st : St) : St :=
  fold_left (processUnit w rocDate) marketOptions st.

(** [while (currentDate >= lookbackDate)]; [None] when the fuel runs out. *)
Fixpoint crawl (fuel : nat) (w : World) (marketOptions : list Market)
               (lookbackDate currentDate : Date) (st : St) : option St :=
  match fuel with
  | O => if Date_geb currentDate lookbackDate then None else Some st
  | S fuel' =>
      if Date_geb currentDate lookbackDate then
        let rocDate := getRocDate currentDate in
        if has (dataMap st) rocDate then
          crawl fuel' w marketOptions lookbackDate (prevDay currentDate) st
        else
          crawl fuel' w marketOptions lookbackDate (prevDay currentDate)
                (processDate w marketOptions rocDate st)
      else Some st
  end.

(** The result of a run: the output file, the queries sent, and the dataset
    at the end. *)
Record Run := mkRun {
  run_file : File;
  run_units : list (list N * Market);
  run_dataMap : DataMap
}.

(** [main()]: [now1] and [now2] are the two values of [new Date()]. *)
Definition main (fuel : nat) (w : World) (now1 now2 : Date) (file : File) : option Run :=
  let dataMap0 := load file in
  let currentDate := now1 in
  let lookbackDate := minusDays 14 now2 in
  match initial w with
  | None => Some (mkRun file [] dataMap0)
  | Some response =>
      let s := initSession response in
      let marketOptions := detectMarkets (data response) in
      match crawl fuel w marketOptions lookbackDate currentDate
                  (mkSt dataMap0 s 0 [] false) with
      | Some st => Some (mkRun (flush (dataMap st) file) (units st) (dataMap st))
      | None => None
      end
  end.

(** ** The history crawler

    The second script: the same session and extraction, a fixed range of
    days, no dataset in memory; the rows of each query are appended to the
    file. *)
Module History.
Record St := mkSt {
  file : File;
  session : Session;
  requests : nat;
  units : list (list N * Market)
}.

Definition processUnit (w : World) (rocDate : jsstring) (st : St) (market : Market) : St :=
  let sent := units st ++ [(rocDate, market)] in
  match queryUnit w (requests st) rocDate market (session st) with
  | Some (s', rows) =>
      mkSt (if (0 <? length rows)%nat
            then appendFileSync (file st) (Csv.stringify rows)
            else file st)
           s' (S (requests st)) sent
  | None => mkSt (file st) (session st) (S (requests st)) sent
  end.

Fixpoint crawl (fuel : nat) (w : World) (marketOptions : list Market)
               (endDate currentDate : Date) (st : St) : option St :=
  match fuel with
  | O => if Date_geb currentDate endDate then None else Some st
  | S fuel' =>
      if Date_geb currentDate endDate then
        crawl fuel' w marketOptions endDate (prevDay currentDate)
              (fold_left (processUnit w (getRocDate currentDate)) marketOptions st)
      else Some st
  end.

(** [new Date('2024-11-26')] and [new Date('2022-01-01')], read in a time
    zone where both fall on the day written. *)
Definition startDate : Date := mkDate 2024 10 26 0.
Definition endDate : Date := mkDate 2022 0 1 0.

Definition main (fuel : nat) (w : World) (file0 : File) : option (File * list (list N * Market)) :=
  (* Initialize CSV with headers if not exists *)
  let file1 := match file0 with
               | Some _ => file0
               | None => writeFileSync file0 (Csv.stringify [headers])
               end in
  match initial w with
  | None => Some (file1, [])
  | Some response =>
      let s := initSession response in
      let marketOptions := detectMarkets (data response) in
      match crawl fuel w marketOptions endDate startDate (mkSt file1 s 0 []) with
      | Some st => Some (file st, units st)
      | None => None
      end
  end.
End History.


(** ** Notions of the specification *)

(** The fixed header row, as a line of the file. *)
Definition headerRow : jsstring :=
  str "Date,Market,Code,Name,Variety,High,Mid,Low,Avg,Volume" ++ [Ch.lf].

(** The rows of one bucket in absorption order, each ended by a line feed. *)
Definition bucketText (dm : DataMap) (date : jsstring) : jsstring :=
  concat (map (fun line => line ++ [Ch.lf]) (default [] (dm !! date))).

(** [x] is the key of a later day than [y]: the order of the DateKeys of the
    specification, which are calendar dates. *)
Definition laterKey (x y : jsstring) : Prop :=
  exists a b, validDate a /\ validDate b /\
              x = getRocDate a /\ y = getRocDate b /\ chrono_lt b a.

(** [x] comes after [y] in the order of the texts, code unit by code unit. *)
Definition laterText (x y : jsstring) : Prop := str_lt y x.

(** [content] lists the buckets of [dm]: the header row, then the rows of
    every bucket that the store holds, each bucket once, the buckets in an
    order where every bucket is [R]-related to those that follow it. *)
Definition serializesBy (R : relation jsstring) (dm : DataMap)
                        (content : jsstring) : Prop :=
  exists dates : list jsstring,
    NoDup dates /\
    (forall k, k ∈ dates <-> is_Some (dm !! k)) /\
    StronglySorted R dates /\
    content = headerRow ++ concat (map (bucketText dm) dates).

(** The serialization of the specification: the buckets by date
    descending. *)
Definition serializes (dm : DataMap) (content : jsstring) : Prop :=
  serializesBy laterKey dm content.

(** The key under which [load] files a line: its first field without quotes. *)
Definition keyOf (line : jsstring) : jsstring :=
  removeQuotes (substring0 (indexOf Ch.comma line) line).

(** A text without a line feed. *)
Definition noLf (l : jsstring) : bool :=
  forallb (fun c => negb (c =? Ch.lf)%N) l.

(** A line that [load] files unchanged under [k]: trimmed, on one line, with
    a separator, and with [k] as its first field. *)
Definition lineOK (k line : jsstring) : bool :=
  bool_decide (trim line = line)
  && noLf line
  && (-1 <? indexOf Ch.comma line)
  && bool_decide (keyOf line = k).

Definition wellKeyed (dm : DataMap) : Prop :=
  map_Forall (fun k ls => forallb (lineOK k) ls = true) dm.

(** The dates that the planner yields for the window from [currentDate] down
    to [lookbackDate], against the store [dm]: the days of the window whose
    key is not in [dm]. *)
Fixpoint plan (fuel : nat) (dm : DataMap) (lookbackDate currentDate : Date)
              : option (list jsstring) :=
  match fuel with
  | O => if Date_geb currentDate lookbackDate then None else Some []
  | S fuel' =>
      if Date_geb currentDate lookbackDate then
        match plan fuel' dm lookbackDate (prevDay currentDate) with
        | Some rest =>
            let rocDate := getRocDate currentDate in
            Some (if has dm rocDate then rest else rocDate :: rest)
        | None => None
        end
      else Some []
  end.

(** The units of a list of dates: every market for each date, in order. *)
Definition unitsOf (marketOptions : list Market) (dates : list jsstring)
                   : list (list N * Market) :=
  flat_map (fun d => map (pair d) marketOptions) dates.

(** A day from 1911 on whose era year is written with [n] digits. *)
Definition eraDate (n : nat) (d : Date) : Prop :=
  validDate d /\ 0 <= getFullYear d - 1911 /\
  length (numToString (getFullYear d - 1911)) = n.

(** A store all of whose keys are keys of such days. *)
Definition dateKeyed (n : nat) (dm : DataMap) : Prop :=
  forall k, is_Some (dm !! k) -> exists a, eraDate n a /\ k = getRocDate a.

(** A row of the table qualifies when it has the eight columns and its first
    cell, trimmed, starts with the prefix of the category code. *)
Definition qualifies (tr : list jsstring) : bool :=
  (8 <=? length tr)%nat && startsWith FV (trim (nth 0 tr [])).

(** The row that the extractor stores for a table row. *)
Definition toRow (rocDate : jsstring) (market : Market) (tr : list jsstring)
                 : list jsstring :=
  [ rocDate; txt market; trim (nth 0 tr []);
    trim (nth 1 tr []); trim (nth 2 tr []); trim (nth 3 tr []);
    trim (nth 4 tr []); trim (nth 5 tr []); trim (nth 6 tr []);
    trim (nth 7 tr []) ].

(** ** Data of the examples *)
Module Ex.
(** 2024-11-29, the day of key 113/11/29, and the two default markets. *)
Definition today : Date := mkDate 2024 10 29 0.
Definition key : jsstring := str "113/11/29".
Definition market1 : Market := mkMarket (str "1") [31532; 19968; 24066; 22580]%N.
Definition market2 : Market := mkMarket (str "2") [31532; 20108; 24066; 22580]%N.

(** The table row of the specification's example. *)
Definition onionRow : list jsstring :=
  [ str "FV001"; [34085]%N; [31881; 34085]%N;
    str "100"; str "90"; str "80"; str "88"; str "1,234" ].

Definition emptyPage : Page := mkPage None None None [] [] [].
Definition pageOf (rows : list (list jsstring)) : Page :=
  mkPage (Some (str "vs1")) (Some (str "gen1")) (Some (str "ev1")) [] [] rows.

(** A source that answers the initial request and fails every query. *)
Definition worldFailing : World :=
  mkWorld (Some (mkResponse None emptyPage)) (fun _ _ => None).

(** A source that is down. *)
Definition worldDown : World := mkWorld None (fun _ _ => None).

(** A source where the first query fails and the second one, the other
    market on the same day, returns the onion row; every later query
    fails. *)
Definition worldFirstFails : World :=
  mkWorld (Some (mkResponse None emptyPage))
          (fun n _ => if (n =? 1)%nat
                      then Some (mkResponse None (pageOf [onionRow]))
                      else None).

(** A file holding one row of today. *)
Definition storedFile : File :=
  Some (headerRow ++ str "113/11/29,M,FV001,a,b,1,2,3,4,5" ++ [Ch.lf]).

(** A previous session, and a response whose [__VIEWSTATE] field is there
    with an empty value. *)
Definition prevSession : Session :=
  mkSession (str "sid=1") (Some (str "abc")) (Some (str "gen0")) (Some (str "ev0")).
Definition emptyViewstate : Response :=
  mkResponse None (mkPage (Some []) (Some (str "gen1")) (Some (str "ev1")) [] [] []).
Definition fullResponse : Response :=
  mkResponse (Some [str "sid=2; path=/"; str "b=3"]) (pageOf []).

(** A row whose name cell holds a line feed, and the store after the rows
    of two days were merged. *)
Definition brokenRow : list jsstring :=
  [ str "FV002"; str "x" ++ [Ch.lf] ++ str "y"; str "v";
    str "1"; str "2"; str "3"; str "4"; str "5" ].
Definition brokenStore : DataMap :=
  absorb (str "113/11/29") (parseTable (str "113/11/29") market1 [brokenRow])
    (absorb (str "113/11/28") (parseTable (str "113/11/28") market1 [onionRow]) ∅).
Definition goodStore : DataMap :=
  absorb (str "113/11/29") (parseTable (str "113/11/29") market1 [onionRow])
    (absorb (str "113/11/28") (parseTable (str "113/11/28") market2 [onionRow; onionRow]) ∅).

(** Two days before 1911. *)
Definition day1906 : Date := mkDate 1906 0 1 0.
Definition day1908 : Date := mkDate 1908 0 1 0.

(** A file without a header row, and the row that the history crawler finds
    on its first day when the source is [worldFirstFails]. *)
Definition junk : jsstring := str "junk" ++ [Ch.lf].
Definition historyRows : list (list jsstring) :=
  parseTable (str "113/11/26") market2 [onionRow].

(** The last day of 2010 and the first day of 2011, whose era years are 99
    and 100, and a store with a line for each. *)
Definition day2010 : Date := mkDate 2010 11 31 0.
Definition day2011 : Date := mkDate 2011 0 1 0.
Definition line99 : jsstring := str "99/12/31,M,FV001,a,b,1,2,3,4,5".
Definition line100 : jsstring := str "100/01/01,M,FV001,a,b,1,2,3,4,5".
Definition centuryStore : DataMap :=
  <[str "99/12/31" := [line99]]> (<[str "100/01/01" := [line100]]> ∅).

End Ex.

(** The number that a list of decimal digits, most significant first,
    writes. *)
Fixpoint pow10 (k : nat) : N :=
  match k with
  | O => 1
  | S k' => 10 * pow10 k'
  end%N.

Fixpoint digitsValue (ds : list N) : N :=
  match ds with
  | [] => 0
  | d :: ds' => d * pow10 (length ds') + digitsValue ds'
  end%N.

(** ** Further notions used by the properties *)

(** A text without the code unit [c]. *)
Definition lacks (c : N) (s : jsstring) : bool :=
  forallb (fun x => negb (x =? c)%N) s.

(** The value of one [set-cookie] header: the pair name=value, followed by a
    semicolon and the attributes when there are any. *)
Definition cookieLine (nv : jsstring) (attrs : option jsstring) : jsstring :=
  match attrs with
  | Some a => nv ++ Ch.semicolon :: a
  | None => nv
  end.

(** The line that csv-stringify writes for a row, without its line feed. *)
Definition recordBody (r : list jsstring) : jsstring :=
  join [Ch.comma] (map Csv.field r).

(** No bucket of the store is empty. *)
Definition noEmptyBucket (dm : DataMap) : Prop :=
  map_Forall (fun (_ : list N) (ls : list (list N)) => ls <> []) dm.

(** No cell of the table of a page holds a line feed. *)
Definition cellsOnOneLine (pg : Page) : bool :=
  forallb (forallb noLf) (pg_rows pg).

(** A source none of whose answers holds a line feed in a cell, and whose
    market names are on one line. *)
Definition sourceOnOneLine (w : World) : Prop :=
  (forall n rq res, post w n rq = Some res -> cellsOnOneLine (data res) = true) /\
  (forall response, initial w = Some response ->
     forallb (fun m => noLf (txt m)) (detectMarkets (data response)) = true).

(** The code units of a date key: the digits, the minus sign and the
    slash. *)
Definition keyChar (c : N) : bool :=
  ((48 <=? c) && (c <=? 57) || (c =? Ch.minus) || (c =? Ch.slash))%N.

(** A text whose last code unit is not one that [trim] strips. *)
Definition endsSolid (s : jsstring) : Prop :=
  exists pre b, s = pre ++ [b] /\ is_ws b = false.

(** ** The dashboard, [App.tsx]

    The dashboard reads the file that the crawler writes.  Of its code the
    pure helpers are embedded: the conversion of a date key, and the two
    handlers of the selection list, as the value they pass to [onChange]. *)
Module App.
(** A JS number as far as [convertDate] meets it: not a number, an integer
    that a double holds exactly, or a number beyond these, whose rounding is
    not followed. *)
Inductive Number := NaN | Int (z : Z) | Beyond.

(** [Number.MAX_SAFE_INTEGER] *)
Definition maxSafe : Z := 9007199254740991.

Definition ofZ (z : Z) : Number :=
  if Z.abs z <=? maxSafe then Int z else Beyond.

(** The value of a code unit as a digit of radix 10 or 16. *)
Definition digitOf (radix : Z) (c : N) : option Z :=
  if ((48 <=? c) && (c <=? 57))%N then Some (Z.of_N c - 48)
  else if (radix =? 16) && ((97 <=? c) && (c <=? 102))%N then Some (Z.of_N c - 87)
  else if (radix =? 16) && ((65 <=? c) && (c <=? 70))%N then Some (Z.of_N c - 55)
  else None.

(** The digits that a text starts with. *)
Fixpoint leadingDigits (radix : Z) (s : jsstring) : list Z :=
  match s with
  | c :: s' =>
      match digitOf radix c with
      | Some v => v :: leadingDigits radix s'
      | None => []
      end
  | [] => []
  end.

Definition radixValue (radix : Z) (ds : list Z) : Z :=
  fold_left (fun acc v => acc * radix + v) ds 0.

(** [parseInt(s)] without a radix: leading white space is skipped, a sign
    is read, the prefix 0x or 0X selects radix 16, and the digits are read up
    to the first code unit that is none; without a digit the result is
    [NaN]. *)
Definition parseInt (s : jsstring) : Number :=
  let s1 := trimStart s in
  let sign := match s1 with
              | c :: _ => if (c =? Ch.minus)%N then -1 else 1
              | [] => 1
              end in
  let s2 := match s1 with
            | c :: r => if ((c =? Ch.minus) || (c =? 43))%N then r else s1
            | [] => s1
            end in
  let hex := match s2 with
             | c :: x :: _ => ((c =? Ch.zero) && ((x =? 120) || (x =? 88)))%N
             | _ => false
             end in
  let radix := if hex then 16 else 10 in
  let s3 := if hex then drop 2 s2 else s2 in
  match leadingDigits radix s3 with
  | [] => NaN
  | ds => ofZ (sign * radixValue radix ds)
  end.

(** [a + b] for an integer [b] *)
Definition plus (a : Number) (b : Z) : Number :=
  match a with
  | Int z => ofZ (z + b)
  | NaN => NaN
  | Beyond => Beyond
  end.

(** The text of a number in a template literal; [None] where the number is
    not followed. *)
Definition toString (a : Number) : option jsstring :=
  match a with
  | NaN => Some (str "NaN")
  | Int z => Some (numToString z)
  | Beyond => None
  end.

Definition convertDate (rocDate : jsstring) : option jsstring :=
  let parts := split Ch.slash rocDate in
  if (length parts =? 3)%nat then
    match toString (plus (parseInt (nth 0 parts [])) 1911) with
    | Some year =>
        Some (year ++ [Ch.minus] ++ nth 1 parts [] ++ [Ch.minus] ++ nth 2 parts [])
    | None => None
    end
  else Some rocDate.

(** [selected.includes(option)] *)
Definition includes (selected : list jsstring) (option : jsstring) : bool :=
  bool_decide (option ∈ selected).

(** The value that [toggleOption] passes to [onChange]. *)
Definition toggleOption (selected : list jsstring) (option : jsstring)
                        : list jsstring :=
  if includes selected option
  then List.filter (fun item => negb (bool_decide (item = option))) selected
  else selected ++ [option].

(** The value that [toggleAll] passes to [onChange]. *)
Definition toggleAll (options selected : list jsstring) : list jsstring :=
  if (length selected =? length options)%nat then [] else options.
End App.

(** The [n] days from [d] backwards, [d] first. *)
Fixpoint daysFrom (n : nat) (d : Date) : list Date :=
  match n with
  | O => []
  | S n' => d :: daysFrom n' (prevDay d)
  end.
(** * Properties *)

(** ** The order of the sort *)
Section order.
Implicit Types a b c : jsstring.

Lemma str_leb_refl a : str_leb a a = true.
Proof. induction a as [|x a IH]; simpl; [done|]. by rewrite N.ltb_irrefl. Qed.

Lemma str_leb_total a b : str_leb a b = true \/ str_leb b a = true.
Proof.
  revert b; induction a as [|x a IH]; intros [|y b]; simpl; auto.
  destruct (N.ltb_spec x y), (N.ltb_spec y x); auto; lia.
Qed.

Lemma str_leb_trans a b c :
  str_leb a b = true -> str_leb b c = true -> str_leb a c = true.
Proof.
  revert b c; induction a as [|x a IH]; intros [|y b] [|z c]; simpl; auto;
    try discriminate.
  destruct (N.ltb_spec x y), (N.ltb_spec y x), (N.ltb_spec y z),
    (N.ltb_spec z y), (N.ltb_spec x z), (N.ltb_spec z x);
    try discriminate; try lia; eauto.
Qed.

Lemma str_leb_antisym a b :
  str_leb a b = true -> str_leb b a = true -> a = b.
Proof.
  revert b; induction a as [|x a IH]; intros [|y b]; simpl; auto;
    try discriminate.
  destruct (N.ltb_spec x y), (N.ltb_spec y x); try discriminate; try lia.
  intros. f_equal; [lia | auto].
Qed.

Global Instance str_le_total : Total str_le.
Proof. intros a b. apply str_leb_total. Qed.
Global Instance str_le_trans : Transitive str_le.
Proof. intros a b c. apply str_leb_trans. Qed.
Global Instance str_le_refl : Reflexive str_le.
Proof. intros a. apply str_leb_refl. Qed.
Global Instance str_le_antisym : AntiSymm (=) str_le.
Proof. intros a b. apply str_leb_antisym. Qed.

Global Instance flip_str_le_antisym : AntiSymm (=) (flip str_le).
Proof. intros a b H1 H2. by apply str_leb_antisym. Qed.

Lemma sort_Permutation (l : list jsstring) : sort l ≡ₚ l.
Proof. apply merge_sort_Permutation. Qed.

Lemma sort_StronglySorted (l : list jsstring) : StronglySorted str_le (sort l).
Proof. apply StronglySorted_merge_sort; apply _. Qed.

Lemma StronglySorted_rev_flip {A} (R : relation A) (l : list A) :
  StronglySorted R l -> StronglySorted (flip R) (rev l).
Proof.
  induction 1 as [|x l Hl IH Hx]; simpl; [constructor|].
  apply StronglySorted_app; split_and!; auto.
  - intros y z Hy Hz. apply list_elem_of_singleton in Hz as ->.
    rewrite Forall_forall in Hx. apply Hx. apply list_elem_of_In, in_rev, list_elem_of_In, Hy.
  - repeat constructor.
Qed.
End order.

(** ** The dataset *)
Section store.
Implicit Types (dm : DataMap) (k d line : jsstring).

Lemma has_true dm k : has dm k = true <-> is_Some (dm !! k).
Proof. unfold has. apply bool_decide_eq_true. Qed.

Lemma has_false dm k : has dm k = false <-> dm !! k = None.
Proof.
  unfold has. rewrite bool_decide_eq_false, eq_None_not_Some. tauto.
Qed.

Lemma has_keys dm k : has dm k = true <-> k ∈ keys dm.
Proof.
  rewrite has_true. unfold keys. rewrite list_elem_of_fmap. split.
  - intros [ls Hls]. exists (k, ls). split; [done|].
    by apply elem_of_map_to_list.
  - intros [[k' ls] [-> Hin]]. apply elem_of_map_to_list in Hin. by exists ls.
Qed.

Lemma keys_NoDup dm : NoDup (keys dm).
Proof. apply NoDup_fst_map_to_list. Qed.

Lemma has_ensure dm k k' :
  has (ensure k dm) k' = has dm k' || bool_decide (k = k').
Proof.
  unfold ensure. destruct (has dm k) eqn:Hk.
  - case_bool_decide as E; [subst; rewrite Hk|]; by rewrite ?orb_false_r.
  - apply eq_true_iff_eq. rewrite orb_true_iff, !has_true, bool_decide_eq_true.
    rewrite lookup_insert_is_Some. destruct (decide (k = k')); tauto.
Qed.

Lemma has_push dm k line k' : has (push k line dm) k' = has dm k'.
Proof.
  apply eq_true_iff_eq. rewrite !has_true. unfold push.
  destruct (decide (k = k')) as [->|Hne].
  - rewrite lookup_alter_eq. by rewrite fmap_is_Some.
  - by rewrite lookup_alter_ne.
Qed.

Lemma has_fold_push dm k k' (ls : list jsstring) :
  has (fold_left (fun dm nl => if nonBlank nl then push k (trim nl) dm else dm)
                 ls dm) k' = has dm k'.
Proof.
  revert dm; induction ls as [|l ls IH]; intros dm; simpl; [done|].
  rewrite IH. destruct (nonBlank l); [apply has_push | done].
Qed.

Lemma absorb_nil d dm : absorb d [] dm = dm.
Proof. reflexivity. Qed.

Lemma has_absorb d rows dm k :
  has (absorb d rows dm) k =
  has dm k || (bool_decide (d = k) && (0 <? length rows)%nat).
Proof.
  unfold absorb. destruct (0 <? length rows)%nat.
  - by rewrite has_fold_push, has_ensure, andb_true_r.
  - by rewrite andb_false_r, orb_false_r.
Qed.

Lemma has_absorb_mono d rows dm k :
  has dm k = true -> has (absorb d rows dm) k = true.
Proof. intros H. by rewrite has_absorb, H. Qed.
End store.

(** ** The loop over the markets and the days *)
Section loop.
Context (w : World).

Lemma units_processUnit d st m :
  units (processUnit w d st m) = units st ++ [(d, m)].
Proof.
  unfold processUnit. destruct (queryUnit _ _ _ _ _) as [[s' rows]|]; done.
Qed.

Lemma units_processDate ms d st :
  units (processDate w ms d st) = units st ++ map (pair d) ms.
Proof.
  unfold processDate. revert st.
  induction ms as [|m ms IH]; intros st; simpl.
  - by rewrite app_nil_r.
  - rewrite IH, units_processUnit. by rewrite <- app_assoc.
Qed.

Lemma has_processUnit_mono d st m k :
  has (dataMap st) k = true -> has (dataMap (processUnit w d st m)) k = true.
Proof.
  unfold processUnit. destruct (queryUnit _ _ _ _ _) as [[s' rows]|]; simpl;
    auto using has_absorb_mono.
Qed.

Lemma has_processDate_mono ms d st k :
  has (dataMap st) k = true -> has (dataMap (processDate w ms d st)) k = true.
Proof.
  unfold processDate. revert st.
  induction ms as [|m ms IH]; intros st; simpl; auto using has_processUnit_mono.
Qed.

(** A key of a date other than [d] is in the store after the queries of
    [d] exactly when it was there before. *)
Lemma has_processUnit_other d st m k :
  k <> d -> has (dataMap (processUnit w d st m)) k = has (dataMap st) k.
Proof.
  intros Hne. unfold processUnit.
  destruct (queryUnit _ _ _ _ _) as [[s' rows]|]; simpl; [|done].
  rewrite has_absorb. case_bool_decide; [congruence|].
  by rewrite orb_false_r.
Qed.

Lemma has_processDate_other ms d st k :
  k <> d -> has (dataMap (processDate w ms d st)) k = has (dataMap st) k.
Proof.
  intros Hne. unfold processDate. revert st.
  induction ms as [|m ms IH]; intros st; simpl; [done|].
  by rewrite IH, has_processUnit_other.
Qed.

(** The loop sends no query for a date that is in the store when it
    starts. *)
Lemma crawl_skips_stored fuel ms lb cur st st' d :
  crawl fuel w ms lb cur st = Some st' ->
  has (dataMap st) d = true ->
  forall u, u ∈ units st' -> u.1 = d -> u ∈ units st.
Proof.
  revert cur st. induction fuel as [|fuel IH]; intros cur st; simpl.
  - destruct (Date_geb cur lb); [done|]. by intros [= <-].
  - destruct (Date_geb cur lb); [|by intros [= <-]].
    destruct (has (dataMap st) (getRocDate cur)) eqn:Hcur.
    + apply IH.
    + intros Hrun Hd u Hu Hud.
      assert (getRocDate cur <> d) as Hne by congruence.
      eapply IH in Hrun; eauto using has_processDate_mono.
      rewrite units_processDate, elem_of_app, list_elem_of_fmap in Hrun.
      destruct Hrun as [?|[m [-> _]]]; [done|]. simpl in Hud. congruence.
Qed.
End loop.

(** ** Days *)
Section days.
Implicit Types d a b : Date.

Lemma daysInMonth_bounds y m : 28 <= daysInMonth y m <= 31.
Proof.
  unfold daysInMonth.
  destruct (m =? 1); [destruct (isLeap y); lia|].
  destruct ((m =? 3) || (m =? 5) || (m =? 8) || (m =? 10)); lia.
Qed.

Lemma prevDay_valid d : validDate d -> validDate (prevDay d).
Proof.
  unfold validDate, prevDay. intros (Hm & Hd & Ht).
  destruct (Z.ltb_spec 1 (getDate d)); simpl; [lia|].
  destruct (Z.ltb_spec 0 (getMonth d)); simpl.
  - pose proof (daysInMonth_bounds (getFullYear d) (getMonth d - 1)). lia.
  - split_and!; try lia. reflexivity.
Qed.

Lemma minusDays_valid k d : validDate d -> validDate (minusDays k d).
Proof.
  intros Hd. unfold minusDays.
  induction k as [|k IH]; simpl; auto using prevDay_valid.
Qed.

Lemma dayOrd_prevDay d : validDate d -> dayOrd (prevDay d) < dayOrd d.
Proof.
  unfold validDate, prevDay, dayOrd. intros (Hm & Hd & Ht).
  destruct (Z.ltb_spec 1 (getDate d)); simpl; [lia|].
  destruct (Z.ltb_spec 0 (getMonth d)); simpl; [|lia].
  pose proof (daysInMonth_bounds (getFullYear d) (getMonth d - 1)). lia.
Qed.

Lemma Date_geb_dayOrd a b :
  validDate a -> validDate b -> Date_geb a b = true -> dayOrd b <= dayOrd a.
Proof.
  unfold validDate, Date_geb, stamp.
  intros (_ & _ & Ha) (_ & _ & Hb) H%Z.leb_le. nia.
Qed.
End days.

(** The loop ends: the days between the two bounds are enough fuel. *)
Lemma crawl_terminates w ms lb cur st fuel :
  validDate cur -> validDate lb ->
  dayOrd cur - dayOrd lb < Z.of_nat fuel ->
  exists st', crawl fuel w ms lb cur st = Some st'.
Proof.
  intros Hcur Hlb. revert cur st Hcur.
  induction fuel as [|fuel IH]; intros cur st Hcur Hfuel; simpl.
  - destruct (Date_geb cur lb) eqn:Hge; [|by eexists].
    apply Date_geb_dayOrd in Hge; auto. lia.
  - destruct (Date_geb cur lb) eqn:Hge; [|by eexists].
    pose proof (dayOrd_prevDay cur Hcur).
    destruct (has (dataMap st) (getRocDate cur));
      apply IH; auto using prevDay_valid; lia.
Qed.

Lemma History_crawl_terminates w ms lb cur st fuel :
  validDate cur -> validDate lb ->
  dayOrd cur - dayOrd lb < Z.of_nat fuel ->
  exists st', History.crawl fuel w ms lb cur st = Some st'.
Proof.
  intros Hcur Hlb. revert cur st Hcur.
  induction fuel as [|fuel IH]; intros cur st Hcur Hfuel; simpl.
  - destruct (Date_geb cur lb) eqn:Hge; [|by eexists].
    apply Date_geb_dayOrd in Hge; auto. lia.
  - destruct (Date_geb cur lb) eqn:Hge; [|by eexists].
    pose proof (dayOrd_prevDay cur Hcur).
    apply IH; auto using prevDay_valid; lia.
Qed.

(** A run of [main] ends: the fuel of the days of the window is enough. *)
Lemma main_terminates w now1 now2 file :
  validDate now1 -> validDate now2 ->
  exists fuel r, main fuel w now1 now2 file = Some r.
Proof.
  intros H1 H2.
  pose proof (minusDays_valid 14 now2 H2) as Hlb.
  exists (S (Z.to_nat (dayOrd now1 - dayOrd (minusDays 14 now2)))).
  unfold main. destruct (initial w) as [response|]; [|by eexists].
  edestruct (crawl_terminates w (detectMarkets (data response))
               (minusDays 14 now2) now1
               (mkSt (load file) (initSession response) 0 [] false)) as [st' ->];
    eauto. lia.
Qed.

(** ** Absorption and planning *)

(** C1, as the specification states it, fails: merging an empty list of rows
    leaves the store as it was, the date is not a key of it, and the loop run
    on that store queries the date again. *)
Lemma absorb_empty_leaves_date_incomplete :
  has (absorb Ex.key [] ∅) Ex.key = false /\
  exists st',
    crawl 1 Ex.worldFailing defaultMarkets Ex.today Ex.today
          (mkSt (absorb Ex.key [] ∅) Ex.prevSession 0 [] false) = Some st' /\
    (Ex.key, Ex.market1) ∈ units st'.
Proof.
  split; [reflexivity|]. eexists. split; [reflexivity|].
  vm_compute. apply list_elem_of_here.
Qed.

(** C1, amended: merging a non-empty list of rows of a date makes the date a
    key of the store, and the loop run on that store sends no query for the
    date; merging the empty list changes nothing. *)
Theorem absorb_marks_date_complete (date : jsstring) (rows : list (list jsstring))
    (dm : DataMap) (Hrows : rows <> []) :
  has (absorb date rows dm) date = true /\
  (forall fuel w ms lb cur s n b st',
     crawl fuel w ms lb cur (mkSt (absorb date rows dm) s n [] b) = Some st' ->
     forall m, (date, m) ∉ units st') /\
  absorb date [] dm = dm.
Proof.
  assert (has (absorb date rows dm) date = true) as Hhas.
  { rewrite has_absorb. destruct rows; [done|]. simpl.
    by rewrite bool_decide_eq_true_2, orb_true_r. }
  split_and!; [done| |done].
  intros fuel w ms lb cur s n b st' Hrun m Hin.
  eapply crawl_skips_stored in Hrun; [| exact Hhas | exact Hin | done].
  simpl in Hrun. by apply not_elem_of_nil in Hrun.
Qed.

Lemma absorb_marks_date_complete_witness :
  has (absorb Ex.key [Ex.onionRow] ∅) Ex.key = true.
Proof.
  apply (absorb_marks_date_complete Ex.key [Ex.onionRow] ∅). discriminate.
Defined.

(** C2, as the specification states it, fails in its exception: in the
    incremental run the most recent day of the window, already in the file,
    is not queried again, while the fourteen other days are. *)
Lemma incremental_run_skips_stored_today :
  getRocDate Ex.today = Ex.key /\
  has (load Ex.storedFile) Ex.key = true /\
  exists r,
    main 16 Ex.worldFailing Ex.today Ex.today Ex.storedFile = Some r /\
    length (run_units r) = 28%nat /\
    Forall (fun u => u.1 <> Ex.key) (run_units r).
Proof.
  split; [reflexivity|]. split; [reflexivity|].
  eexists. split; [vm_compute; reflexivity|].
  split; [reflexivity|].
  apply (bool_decide_unpack _). vm_compute. reflexivity.
Qed.

(** C2, amended: for every store and every date that is a key of it, the
    loop, which is the incremental planner, sends no query for that date; the
    most recent days of the window are no exception. *)
Theorem crawl_never_yields_stored_date (fuel : nat) (w : World)
    (ms : list Market) (lb cur : Date) (S : DataMap) (s : Session)
    (st' : St) (d : jsstring) :
  crawl fuel w ms lb cur (mkSt S s 0 [] false) = Some st' ->
  has S d = true ->
  forall u, u ∈ units st' -> u.1 <> d.
Proof.
  intros Hrun Hd u Hu Hud.
  eapply crawl_skips_stored in Hrun; [| exact Hd | exact Hu | exact Hud].
  simpl in Hrun. by apply not_elem_of_nil in Hrun.
Qed.

Lemma crawl_never_yields_stored_date_witness :
  Forall (fun u : list N * Market => u.1 <> Ex.key)
         [(str "113/11/28", Ex.market1); (str "113/11/28", Ex.market2)].
Proof.
  apply Forall_forall.
  apply (crawl_never_yields_stored_date 3 Ex.worldFailing defaultMarkets
           (minusDays 1 Ex.today) Ex.today (load Ex.storedFile) Ex.prevSession
           (mkSt (load Ex.storedFile) Ex.prevSession 2
                 [(str "113/11/28", Ex.market1); (str "113/11/28", Ex.market2)]
                 false)).
  - vm_compute. reflexivity.
  - vm_compute. reflexivity.
Defined.

(** The same for a whole run of the incremental crawler. *)
Lemma main_never_queries_stored_date fuel w now1 now2 file r d :
  main fuel w now1 now2 file = Some r ->
  has (load file) d = true ->
  forall u, u ∈ run_units r -> u.1 <> d.
Proof.
  unfold main. destruct (initial w) as [response|].
  - destruct (crawl _ _ _ _ _ _) as [st'|] eqn:Hrun; [|done].
    intros [= <-] Hd u Hu Hud. simpl in Hu.
    eapply crawl_skips_stored in Hrun; [| exact Hd | exact Hu | exact Hud].
    simpl in Hrun. by apply not_elem_of_nil in Hrun.
  - intros [= <-] _ u Hu. by apply not_elem_of_nil in Hu.
Qed.

(** ** Extraction *)
Section extraction.
Implicit Types (d : jsstring) (m : Market) (tr : list jsstring).

Lemma nth_map_trim i tr : nth i (map trim tr) [] = trim (nth i tr []).
Proof. change (@nil N) with (trim []) at 1. apply map_nth. Qed.

Lemma parseTable_cons d m tr trs :
  parseTable d m (tr :: trs) =
  if qualifies tr then toRow d m tr :: parseTable d m trs
  else parseTable d m trs.
Proof.
  unfold qualifies, toRow. cbn [parseTable].
  rewrite length_map, !nth_map_trim.
  destruct (8 <=? length tr)%nat; [|done].
  by destruct (startsWith FV (trim (nth 0 tr []))).
Qed.

Lemma parseTable_filter d m trs :
  parseTable d m trs = map (toRow d m) (List.filter qualifies trs).
Proof.
  induction trs as [|tr trs IH]; [done|].
  rewrite parseTable_cons. cbn [List.filter].
  destruct (qualifies tr); simpl; by rewrite IH.
Qed.

Lemma qualifies_spec tr :
  qualifies tr = true <->
  (8 <= length tr)%nat /\ startsWith FV (trim (nth 0 tr [])) = true.
Proof. unfold qualifies. by rewrite andb_true_iff, Nat.leb_le. Qed.
End extraction.

(** C8: the extractor's output is the image of the qualifying rows of the
    table, in order; every row of the output comes from a table row with at
    least eight cells whose first cell starts with FV, and carries that code;
    the function is total, a row that does not qualify is passed over. *)
Theorem extract_only_qualifying_rows (d : jsstring) (m : Market)
    (trs : list (list jsstring)) :
  parseTable d m trs = map (toRow d m) (List.filter qualifies trs) /\
  Forall (fun r => exists tr,
            tr ∈ trs /\ (8 <= length tr)%nat /\
            startsWith FV (trim (nth 0 tr [])) = true /\
            r = toRow d m tr /\ startsWith FV (nth 2 r []) = true)
         (parseTable d m trs).
Proof.
  split; [apply parseTable_filter|].
  rewrite parseTable_filter, Forall_forall. intros r Hr.
  apply list_elem_of_fmap in Hr as [tr [-> Htr]].
  apply list_elem_of_In, filter_In in Htr as [Hin Hq].
  apply qualifies_spec in Hq as [Hlen Hfv].
  exists tr. split_and!; auto. by apply list_elem_of_In.
Qed.

(** C4, as the specification states it, fails: the extractor stores the cells
    as text; the Volume of the example row is the text with its comma, not
    the number 1234, and the line written for it quotes that field. *)
Lemma extract_keeps_volume_text :
  parseTable Ex.key Ex.market1 [Ex.onionRow] =
    [[Ex.key; txt Ex.market1; str "FV001"; [34085]%N; [31881; 34085]%N;
      str "100"; str "90"; str "80"; str "88"; str "1,234"]] /\
  str "1,234" <> numToString 1234 /\
  Csv.field (str "1,234") = Ch.dquote :: str "1,234" ++ [Ch.dquote].
Proof. split_and!; [reflexivity | discriminate | reflexivity]. Qed.

(** C4, amended: for every qualifying table row the record holds High, Mid,
    Low, Avg and Volume as the trimmed text of the cells, with no separator
    removed and no default put in. *)
Theorem extract_keeps_cell_text (d : jsstring) (m : Market)
    (tr : list jsstring) (Hq : qualifies tr = true) :
  exists r,
    parseTable d m [tr] = [r] /\
    nth 5 r [] = trim (nth 3 tr []) /\
    nth 6 r [] = trim (nth 4 tr []) /\
    nth 7 r [] = trim (nth 5 tr []) /\
    nth 8 r [] = trim (nth 6 tr []) /\
    nth 9 r [] = trim (nth 7 tr []).
Proof.
  exists (toRow d m tr). rewrite parseTable_cons, Hq. by split_and!.
Qed.

Lemma extract_keeps_cell_text_witness :
  exists r,
    parseTable Ex.key Ex.market1 [Ex.onionRow] = [r] /\
    nth 5 r [] = trim (str "100") /\
    nth 6 r [] = trim (str "90") /\
    nth 7 r [] = trim (str "80") /\
    nth 8 r [] = trim (str "88") /\
    nth 9 r [] = trim (str "1,234").
Proof.
  apply (extract_keeps_cell_text Ex.key Ex.market1 Ex.onionRow). reflexivity.
Defined.

(** ** Session state *)

Lemma js_or_found (v : jsstring) (prev : option jsstring) :
  v <> [] -> js_or (Some v) prev = Some v.
Proof. by destruct v. Qed.

(** C9, as the specification states it, fails for a field that the response
    holds with an empty value: the previous token is kept, not replaced by
    the value found. *)
Lemma refresh_keeps_token_on_empty_value :
  pg_viewstate (data Ex.emptyViewstate) = Some [] /\
  viewstate (refresh Ex.emptyViewstate Ex.prevSession) = Some (str "abc") /\
  viewstate (refresh Ex.emptyViewstate Ex.prevSession) <> Some [].
Proof. split_and!; [reflexivity | reflexivity | discriminate]. Qed.

(** C9, amended: the cookies are replaced when the response has a set-cookie
    header and kept otherwise; each of the three tokens is replaced by the
    value found in the response when that value is there and not empty, and
    keeps its previous value when the field is missing or empty. *)
Theorem refresh_field_by_field (res : Response) (prev : Session) :
  (forall hdr, set_cookie res = Some hdr ->
               cookies (refresh res prev) = captureCookies hdr) /\
  (set_cookie res = None -> cookies (refresh res prev) = cookies prev) /\
  (forall v, pg_viewstate (data res) = Some v -> v <> [] ->
             viewstate (refresh res prev) = Some v) /\
  (pg_viewstate (data res) = None \/ pg_viewstate (data res) = Some [] ->
   viewstate (refresh res prev) = viewstate prev) /\
  (forall v, pg_viewstateGenerator (data res) = Some v -> v <> [] ->
             viewstateGenerator (refresh res prev) = Some v) /\
  (pg_viewstateGenerator (data res) = None \/
   pg_viewstateGenerator (data res) = Some [] ->
   viewstateGenerator (refresh res prev) = viewstateGenerator prev) /\
  (forall v, pg_eventValidation (data res) = Some v -> v <> [] ->
             eventValidation (refresh res prev) = Some v) /\
  (pg_eventValidation (data res) = None \/
   pg_eventValidation (data res) = Some [] ->
   eventValidation (refresh res prev) = eventValidation prev).
Proof.
  unfold refresh; simpl. split_and!.
  - by intros hdr ->.
  - by intros ->.
  - intros v -> Hv. by apply js_or_found.
  - by intros [-> | ->].
  - intros v -> Hv. by apply js_or_found.
  - by intros [-> | ->].
  - intros v -> Hv. by apply js_or_found.
  - by intros [-> | ->].
Qed.

Lemma refresh_field_by_field_witness :
  cookies (refresh Ex.fullResponse Ex.prevSession) = str "sid=2; b=3" /\
  viewstate (refresh Ex.fullResponse Ex.prevSession) = Some (str "vs1") /\
  viewstate (refresh Ex.emptyViewstate Ex.prevSession) = Some (str "abc") /\
  cookies (refresh Ex.emptyViewstate Ex.prevSession) = str "sid=1".
Proof.
  destruct (refresh_field_by_field Ex.fullResponse Ex.prevSession)
    as (Hc & _ & Hv & _).
  destruct (refresh_field_by_field Ex.emptyViewstate Ex.prevSession)
    as (_ & Hc' & _ & Hv' & _).
  split_and!.
  - apply (Hc [str "sid=2; path=/"; str "b=3"]). reflexivity.
  - apply Hv; [reflexivity | discriminate].
  - apply Hv'. right. reflexivity.
  - apply Hc'. reflexivity.
Defined.

(** ** Failure of the initial request *)

Lemma stringify_headers : Csv.stringify [headers] = headerRow.
Proof. reflexivity. Qed.

(** C5, as the specification states it, fails for the history crawler: when
    the file does not exist it is created with the header row before the
    initial request is sent, so the failed request leaves a changed file. *)
Lemma history_init_failure_creates_file :
  initial Ex.worldDown = None /\
  History.main 0 Ex.worldDown None = Some (Some headerRow, []) /\
  Some headerRow <> (None : File).
Proof. split_and!; [reflexivity | reflexivity | discriminate]. Qed.

(** C5, amended: when the initial request fails the run ends without a
    query; the incremental crawler leaves the file as it was; the history
    crawler leaves an existing file as it was and has created a missing one
    with the header row alone. *)
Theorem init_failure_aborts (fuel : nat) (w : World) (now1 now2 : Date)
    (file : File) (Hinit : initial w = None) :
  main fuel w now1 now2 file = Some (mkRun file [] (load file)) /\
  History.main fuel w file =
    Some (match file with Some _ => file | None => Some headerRow end, []).
Proof.
  unfold main, History.main. rewrite Hinit. split; [done|].
  by destruct file.
Qed.

Lemma init_failure_aborts_witness :
  main 16 Ex.worldDown Ex.today Ex.today Ex.storedFile =
    Some (mkRun Ex.storedFile [] (load Ex.storedFile)) /\
  History.main 16 Ex.worldDown Ex.storedFile = Some (Ex.storedFile, []).
Proof.
  apply (init_failure_aborts 16 Ex.worldDown Ex.today Ex.today Ex.storedFile).
  reflexivity.
Defined.

(** ** Writing the file *)
Section flush.
Implicit Types (dm : DataMap) (file : File).

Lemma write_lines (ls : list jsstring) (c : jsstring) :
  fold_left (fun fd line => writeSync fd (line ++ [Ch.lf])) ls (Some c) =
  Some (c ++ concat (map (fun line => line ++ [Ch.lf]) ls)).
Proof.
  revert c; induction ls as [|l ls IH]; intros c; simpl.
  - by rewrite app_nil_r.
  - unfold writeSync at 2. simpl. rewrite IH. by rewrite <- !app_assoc.
Qed.

Lemma write_buckets dm (dates : list jsstring) (c : jsstring) :
  fold_left (fun fd date =>
               fold_left (fun fd line => writeSync fd (line ++ [Ch.lf]))
                         (default [] (dm !! date)) fd)
            dates (Some c) =
  Some (c ++ concat (map (bucketText dm) dates)).
Proof.
  revert c; induction dates as [|d dates IH]; intros c; simpl.
  - by rewrite app_nil_r.
  - rewrite write_lines, IH. unfold bucketText. by rewrite <- !app_assoc.
Qed.

Lemma flush_eq dm file :
  flush dm file =
  Some (headerRow ++ concat (map (bucketText dm) (sortedDates dm))).
Proof.
  unfold flush, openSync_w. unfold writeSync at 2. simpl default.
  rewrite app_nil_l, stringify_headers. apply write_buckets.
Qed.

Lemma sortedDates_Permutation dm : sortedDates dm ≡ₚ keys dm.
Proof.
  unfold sortedDates. rewrite <- Permutation_rev. apply sort_Permutation.
Qed.

Lemma sortedDates_sorted dm : StronglySorted (flip str_le) (sortedDates dm).
Proof. apply StronglySorted_rev_flip, sort_StronglySorted. Qed.

Lemma sortedDates_NoDup dm : NoDup (sortedDates dm).
Proof. rewrite sortedDates_Permutation. apply keys_NoDup. Qed.

Lemma sortedDates_unique dm (dates : list jsstring) :
  dates ≡ₚ keys dm -> StronglySorted (flip str_le) dates ->
  dates = sortedDates dm.
Proof.
  intros Hp Hs.
  apply (StronglySorted_unique (flip str_le)); auto using sortedDates_sorted.
  by rewrite sortedDates_Permutation.
Qed.

Lemma keys_empty : keys (∅ : DataMap) = [].
Proof. unfold keys. by rewrite map_to_list_empty. Qed.

(** The history crawler has no store and no [flush]: the rows of a query are
    put after what the file holds. *)
Lemma History_processUnit_appends w d (st : History.St) m s' rows :
  queryUnit w (History.requests st) d m (History.session st) = Some (s', rows) ->
  rows <> [] ->
  History.file (History.processUnit w d st m) =
  Some (default [] (History.file st) ++ Csv.stringify rows).
Proof.
  intros Hq Hrows. unfold History.processUnit. rewrite Hq. simpl.
  by destruct rows.
Qed.
End flush.

(** ** Decimal digits and the order of strings *)
Section digits.
Local Open Scope N_scope.
Implicit Types (n : N) (ds a b : list N).

Lemma pow10_pos k : 0 < pow10 k.
Proof. induction k; simpl; lia. Qed.

Lemma digitsValue_snoc ds d :
  digitsValue (ds ++ [d]) = 10 * digitsValue ds + d.
Proof.
  induction ds as [|x ds IH]; simpl; [lia|].
  rewrite IH, length_app, Nat.add_1_r. simpl. lia.
Qed.

Lemma digitsValue_bound ds :
  Forall (fun d => d < 10) ds -> digitsValue ds < pow10 (length ds).
Proof.
  induction 1 as [|d ds Hd _ IH]; simpl; [lia|].
  pose proof (pow10_pos (length ds)). nia.
Qed.

Lemma digitsValue_repeat0 k ds :
  digitsValue (repeat 0 k ++ ds) = digitsValue ds.
Proof. induction k as [|k IH]; simpl; [done|]. by rewrite IH. Qed.

(** With fuel for every binary digit the decimal digits are all there. *)
Lemma digits_fuel_spec f n :
  n < 2 ^ N.of_nat f ->
  digitsValue (digits_fuel f n) = n /\
  Forall (fun d => d < 10) (digits_fuel f n).
Proof.
  revert n. induction f as [|f IH]; intros n Hn.
  - simpl in Hn. assert (n = 0) as -> by lia. by split; [|constructor].
  - cbn [digits_fuel]. destruct (N.ltb_spec n 10) as [Hlt|Hge].
    + split; [simpl; lia | by repeat constructor].
    + rewrite Nat2N.inj_succ, N.pow_succ_r' in Hn.
      destruct (IH (n / 10)) as [Hv Hd].
      { apply N.Div0.div_lt_upper_bound; lia. }
      split.
      * rewrite digitsValue_snoc, Hv.
        pose proof (N.div_mod n 10). lia.
      * apply Forall_app. split; [done|]. repeat constructor.
        apply N.mod_lt. lia.
Qed.

Lemma digits_spec n :
  digitsValue (digits n) = n /\ Forall (fun d => d < 10) (digits n).
Proof.
  apply digits_fuel_spec. rewrite Nat2N.inj_succ, N2Nat.id.
  destruct n as [|p]; [done|]. apply N.log2_spec. lia.
Qed.

Lemma digits_fuel_length f n k :
  (0 < k)%nat -> n < pow10 k -> (length (digits_fuel f n) <= k)%nat.
Proof.
  revert n k. induction f as [|f IH]; intros n k Hk Hn; simpl; [lia|].
  destruct (N.ltb_spec n 10) as [Hlt|Hge]; simpl; [lia|].
  rewrite length_app, Nat.add_1_r.
  destruct k as [|[|k]]; [lia | simpl in Hn; lia |].
  apply le_n_S, IH; [lia|].
  change (pow10 (S (S k))) with (10 * pow10 (S k)) in Hn.
  apply N.Div0.div_lt_upper_bound; lia.
Qed.

Lemma digits_length_pos n : (0 < length (digits n))%nat.
Proof.
  unfold digits. cbn [digits_fuel]. destruct (n <? 10); simpl; [lia|].
  rewrite length_app. simpl. lia.
Qed.

Lemma digits_inj n1 n2 : digits n1 = digits n2 -> n1 = n2.
Proof.
  intros H. rewrite <- (proj1 (digits_spec n1)), <- (proj1 (digits_spec n2)).
  by rewrite H.
Qed.

(** *** The strict order *)

Lemma str_lt_cons_lt x y a b : x < y -> str_lt (x :: a) (y :: b).
Proof.
  intros H. split; [|intros [= -> _]; lia].
  unfold str_le. simpl. by apply N.ltb_lt in H as ->.
Qed.

Lemma str_lt_cons_eq x a b : str_lt a b -> str_lt (x :: a) (x :: b).
Proof.
  intros [Hle Hne]. split; [|congruence].
  unfold str_le. simpl. by rewrite N.ltb_irrefl.
Qed.

Lemma str_lt_cons_inv x y a b :
  str_lt (x :: a) (y :: b) -> x < y \/ (x = y /\ str_lt a b).
Proof.
  intros [Hle Hne]. unfold str_le in Hle. simpl in Hle.
  destruct (N.ltb_spec x y); [by left|].
  destruct (N.ltb_spec y x); [done|].
  assert (x = y) as -> by lia. right. split; [done|].
  split; [done | congruence].
Qed.

(** Two strings of the same length are ordered by their first difference,
    whatever follows them. *)
Lemma str_lt_app_same_length a b u v :
  length a = length b -> str_lt a b -> str_lt (a ++ u) (b ++ v).
Proof.
  revert b. induction a as [|x a IH]; intros [|y b] Hlen Hlt; try done.
  - by destruct Hlt.
  - simpl in Hlen. apply str_lt_cons_inv in Hlt as [Hxy | [-> Hab]]; simpl.
    + by apply str_lt_cons_lt.
    + apply str_lt_cons_eq, IH; [lia | done].
Qed.

Lemma str_lt_app_prefix p u v : str_lt u v -> str_lt (p ++ u) (p ++ v).
Proof. induction p; simpl; auto using str_lt_cons_eq. Qed.

(** Digit strings of the same length are ordered as the numbers they
    write. *)
Lemma digits_lex a b :
  length a = length b ->
  Forall (fun d => d < 10) a -> Forall (fun d => d < 10) b ->
  digitsValue a < digitsValue b ->
  str_lt (map (N.add Ch.zero) a) (map (N.add Ch.zero) b).
Proof.
  revert b. induction a as [|x a IH]; intros [|y b] Hlen Ha Hb Hv; try done.
  simpl in Hlen. inversion Ha as [|? ? Hx Ha']; inversion Hb as [|? ? Hy Hb'];
    subst. cbn [digitsValue] in Hv.
  pose proof (digitsValue_bound a Ha'). pose proof (digitsValue_bound b Hb').
  assert (length a = length b) as Hl by lia. rewrite Hl in *.
  destruct (N.lt_trichotomy x y) as [Hxy | [-> | Hxy]]; cbn [map].
  - apply str_lt_cons_lt. unfold Ch.zero. lia.
  - apply str_lt_cons_eq, IH; auto. lia.
  - nia.
Qed.
End digits.

(** ** The key of a day *)
Section rocdate.
Implicit Types (z : Z) (d a b : Date).

Lemma numToString_nonneg z :
  0 <= z -> numToString z = map (N.add Ch.zero) (digits (Z.to_N z)).
Proof.
  intros Hz. unfold numToString.
  destruct (Z.ltb_spec z 0); [lia|]. by rewrite Z.abs_eq.
Qed.

Lemma repeat_zero_digits k :
  repeat Ch.zero k = map (N.add Ch.zero) (repeat 0%N k).
Proof. induction k as [|k IH]; simpl; [done|]. by rewrite <- IH. Qed.

(** A number below one hundred padded to two places: its two digits. *)
Lemma padStart2 z :
  0 <= z < 100 ->
  padStart 2 Ch.zero (numToString z) =
  [ (Ch.zero + Z.to_N z / 10)%N; (Ch.zero + Z.to_N z mod 10)%N ].
Proof.
  intros Hz. rewrite numToString_nonneg by lia. unfold padStart.
  rewrite length_map, repeat_zero_digits, <- map_app.
  set (n := Z.to_N z). assert (n < 100)%N as Hn by lia. clearbody n.
  destruct (digits_spec n) as [Hv Hd].
  pose proof (digits_length_pos n) as Hpos.
  pose proof (digits_fuel_length (S (N.to_nat (N.log2 n))) n 2
                ltac:(lia) ltac:(simpl; lia)) as Hlen.
  fold (digits n) in Hlen.
  destruct (digits n) as [|d1 [|d0 [|]]] eqn:E; simpl in Hpos, Hlen; try lia.
  - cbn [digitsValue length pow10] in Hv. cbn [length Nat.sub repeat app map].
    apply Forall_cons in Hd as [H1 _].
    assert (n / 10 = 0)%N as -> by (apply N.div_small; lia).
    assert (n mod 10 = d1)%N as -> by (rewrite N.mod_small; lia).
    done.
  - cbn [digitsValue length pow10] in Hv. cbn [length Nat.sub repeat app map].
    apply Forall_cons in Hd as [H1 Hd']. apply Forall_cons in Hd' as [H0 _].
    assert (d1 = n / 10)%N as <- by (apply (N.div_unique n 10 d1 d0); lia).
    assert (d0 = n mod 10)%N as <- by (apply (N.mod_unique n 10 d1 d0); lia).
    done.
Qed.

Lemma padStart2_lt z1 z2 :
  0 <= z1 -> z1 < z2 -> z2 < 100 ->
  str_lt (padStart 2 Ch.zero (numToString z1))
         (padStart 2 Ch.zero (numToString z2)).
Proof.
  intros H0 H12 H2. rewrite !padStart2 by lia.
  set (n1 := Z.to_N z1). set (n2 := Z.to_N z2).
  assert (n1 < n2)%N as Hn by lia.
  clearbody n1 n2.
  pose proof (N.div_mod n1 10). pose proof (N.div_mod n2 10).
  pose proof (N.mod_lt n1 10). pose proof (N.mod_lt n2 10).
  pose proof (N.le_0_l (n1 mod 10)). pose proof (N.le_0_l (n2 mod 10)).
  destruct (N.lt_trichotomy (n1 / 10) (n2 / 10)) as [Hq | [Hq | Hq]].
  - apply str_lt_cons_lt. lia.
  - rewrite Hq. apply str_lt_cons_eq, str_lt_cons_lt. lia.
  - lia.
Qed.

Lemma numToString_lt z1 z2 :
  0 <= z1 -> z1 < z2 ->
  length (numToString z1) = length (numToString z2) ->
  str_lt (numToString z1) (numToString z2).
Proof.
  intros H0 H12. rewrite !numToString_nonneg by lia. rewrite !length_map.
  intros Hlen.
  destruct (digits_spec (Z.to_N z1)) as [Hv1 Hd1].
  destruct (digits_spec (Z.to_N z2)) as [Hv2 Hd2].
  apply digits_lex; auto. rewrite Hv1, Hv2. lia.
Qed.

(** The key, field by field. *)
Lemma getRocDate_fields d :
  validDate d ->
  getRocDate d =
  numToString (getFullYear d - 1911) ++
  [ Ch.slash;
    (Ch.zero + Z.to_N (getMonth d + 1) / 10)%N;
    (Ch.zero + Z.to_N (getMonth d + 1) mod 10)%N;
    Ch.slash;
    (Ch.zero + Z.to_N (getDate d) / 10)%N;
    (Ch.zero + Z.to_N (getDate d) mod 10)%N ].
Proof.
  intros (Hm & Hd & _).
  pose proof (daysInMonth_bounds (getFullYear d) (getMonth d)).
  unfold getRocDate. by rewrite !padStart2 by lia.
Qed.

(** The key depends on the calendar day only. *)
Lemma getRocDate_same_day a b :
  getFullYear a = getFullYear b -> getMonth a = getMonth b ->
  getDate a = getDate b -> getRocDate a = getRocDate b.
Proof. unfold getRocDate. by intros -> -> ->. Qed.

(** Among the days from 1911 on whose era years have the same number of
    digits, a later day has a greater key. *)
Lemma getRocDate_mono n a b :
  eraDate n a -> eraDate n b -> chrono_lt a b ->
  str_lt (getRocDate a) (getRocDate b).
Proof.
  intros ((Hma & Hda & _) & Hya & Hla) ((Hmb & Hdb & _) & Hyb & Hlb) Hlt.
  pose proof (daysInMonth_bounds (getFullYear a) (getMonth a)).
  pose proof (daysInMonth_bounds (getFullYear b) (getMonth b)).
  unfold getRocDate.
  destruct Hlt as [Hy | [Hy [Hm | [Hm Hd]]]].
  - apply str_lt_app_same_length; [congruence|].
    apply numToString_lt; [lia | lia | congruence].
  - rewrite Hy. apply str_lt_app_prefix, (str_lt_app_prefix [Ch.slash]).
    apply str_lt_app_same_length; [by rewrite !padStart2 by lia|].
    apply padStart2_lt; lia.
  - rewrite Hy, Hm.
    apply str_lt_app_prefix, (str_lt_app_prefix [Ch.slash]).
    apply str_lt_app_prefix, (str_lt_app_prefix [Ch.slash]).
    apply padStart2_lt; lia.
Qed.

Lemma chrono_trichotomy a b :
  chrono_lt a b \/ chrono_lt b a \/
  (getFullYear a = getFullYear b /\ getMonth a = getMonth b /\
   getDate a = getDate b).
Proof. unfold chrono_lt. lia. Qed.

Lemma StronglySorted_NoDup_impl {A} (R R' : relation A) (l : list A) :
  (forall x y, R x y -> x <> y -> R' x y) ->
  StronglySorted R l -> NoDup l -> StronglySorted R' l.
Proof.
  intros HR. induction 1 as [|x l Hl IH Hx]; intros Hnd; [constructor|].
  apply NoDup_cons in Hnd as [Hnotin Hnd]. constructor; [auto|].
  rewrite Forall_forall in Hx |- *. intros y Hy.
  apply HR; [auto|]. intros ->. done.
Qed.
End rocdate.

(** C10, as the specification states it, fails before 1911: the era years of
    1906 and 1908 are written with one digit each, and the key of the later
    day is the smaller one. *)
Lemma negative_era_years_reverse_the_order :
  chrono_lt Ex.day1906 Ex.day1908 /\
  getRocDate Ex.day1906 = str "-5/01/01" /\
  getRocDate Ex.day1908 = str "-3/01/01" /\
  str_lt (getRocDate Ex.day1908) (getRocDate Ex.day1906) /\
  ~ str_lt (getRocDate Ex.day1906) (getRocDate Ex.day1908).
Proof.
  split_and!; try reflexivity.
  - left. reflexivity.
  - split; [reflexivity | discriminate].
  - intros [H _]. discriminate H.
Qed.

(** C10, amended: the key of a valid day is the era year unpadded followed by
    the month and the day on two digits each; for two days from 1911 on
    whose era years have the same number of digits the later day has the
    greater key; and in the order in which the serializer writes the keys of
    any store, a key of such a day comes before the key of every earlier such
    day. *)
Theorem rocDate_keys_sort_chronologically (n : nat) (dm : DataMap) :
  (forall d, validDate d ->
     getRocDate d =
     numToString (getFullYear d - 1911) ++
     [ Ch.slash;
       (Ch.zero + Z.to_N (getMonth d + 1) / 10)%N;
       (Ch.zero + Z.to_N (getMonth d + 1) mod 10)%N;
       Ch.slash;
       (Ch.zero + Z.to_N (getDate d) / 10)%N;
       (Ch.zero + Z.to_N (getDate d) mod 10)%N ]) /\
  (forall a b, eraDate n a -> eraDate n b -> chrono_lt a b ->
     str_lt (getRocDate a) (getRocDate b)) /\
  StronglySorted
    (fun x y => forall a b, eraDate n a -> eraDate n b ->
                  x = getRocDate a -> y = getRocDate b -> chrono_lt b a)
    (sortedDates dm).
Proof.
  split_and!.
  - apply getRocDate_fields.
  - apply getRocDate_mono.
  - eapply StronglySorted_NoDup_impl;
      [| apply sortedDates_sorted | apply sortedDates_NoDup].
    intros x y Hyx Hne a b Ha Hb -> ->.
    destruct (chrono_trichotomy a b) as [Hlt | [Hlt | (Hy & Hm & Hd)]].
    + apply (getRocDate_mono n) in Hlt as [Hle _]; auto.
      destruct Hne. by apply str_leb_antisym.
    + done.
    + destruct Hne. by apply getRocDate_same_day.
Qed.

Lemma rocDate_keys_sort_chronologically_witness :
  str_lt (getRocDate (mkDate 2024 10 28 0)) (getRocDate Ex.today).
Proof.
  apply (proj1 (proj2 (rocDate_keys_sort_chronologically 3 ∅))).
  - split; [|split; [simpl; lia | reflexivity]].
    unfold validDate; simpl. split_and!; lia || (vm_compute; discriminate).
  - split; [|split; [simpl; lia | reflexivity]].
    unfold validDate; simpl. split_and!; lia || (vm_compute; discriminate).
  - right. split; [reflexivity|]. right. split; [reflexivity|]. simpl. lia.
Defined.

(** ** Different days have different keys *)
Section rocdate_inj.
Implicit Types (z : Z) (a b : Date).

Lemma map_add_zero_inj (l1 l2 : list N) :
  map (N.add Ch.zero) l1 = map (N.add Ch.zero) l2 -> l1 = l2.
Proof.
  revert l2. induction l1 as [|x l1 IH]; intros [|y l2]; simpl; try done.
  intros [= Hxy Hl]. f_equal; [lia | auto].
Qed.

Lemma numToString_neg z :
  z < 0 ->
  numToString z = Ch.minus :: map (N.add Ch.zero) (digits (Z.to_N (Z.abs z))).
Proof.
  intros Hz. unfold numToString. by destruct (Z.ltb_spec z 0); [|lia].
Qed.

Lemma digit_string_head n :
  exists c rest, map (N.add Ch.zero) (digits n) = c :: rest /\ (Ch.zero <= c)%N.
Proof.
  pose proof (digits_length_pos n) as Hpos.
  destruct (digits n) as [|d ds]; simpl in Hpos; [lia|].
  eexists _, _. split; [reflexivity|]. lia.
Qed.

Lemma numToString_inj z1 z2 : numToString z1 = numToString z2 -> z1 = z2.
Proof.
  destruct (Z.lt_ge_cases z1 0) as [H1|H1], (Z.lt_ge_cases z2 0) as [H2|H2].
  - rewrite !numToString_neg by done. intros [= H%map_add_zero_inj%digits_inj].
    lia.
  - rewrite numToString_neg, numToString_nonneg by done.
    destruct (digit_string_head (Z.to_N z2)) as (c & rest & E & Hc).
    rewrite E. intros [= <- _]. unfold Ch.zero, Ch.minus in Hc. lia.
  - rewrite (numToString_neg z2), (numToString_nonneg z1) by done.
    destruct (digit_string_head (Z.to_N z1)) as (c & rest & E & Hc).
    rewrite E. intros [= -> _]. unfold Ch.zero, Ch.minus in Hc. lia.
  - rewrite !numToString_nonneg by done. intros H%map_add_zero_inj%digits_inj.
    lia.
Qed.

Lemma two_digits_inj (n1 n2 : N) :
  (Ch.zero + n1 / 10 = Ch.zero + n2 / 10)%N ->
  (Ch.zero + n1 mod 10 = Ch.zero + n2 mod 10)%N -> n1 = n2.
Proof.
  intros Hq Hr. pose proof (N.div_mod n1 10). pose proof (N.div_mod n2 10). lia.
Qed.

Lemma getRocDate_inj a b :
  validDate a -> validDate b -> getRocDate a = getRocDate b ->
  getFullYear a = getFullYear b /\ getMonth a = getMonth b /\
  getDate a = getDate b.
Proof.
  intros Ha Hb. rewrite !getRocDate_fields by done.
  destruct Ha as (Hma & Hda & _), Hb as (Hmb & Hdb & _). intros Heq.
  apply app_inj_2 in Heq as [Hy Ht]; [|done].
  apply numToString_inj in Hy. injection Ht as Hm1 Hm0 Hd1 Hd0.
  pose proof (two_digits_inj _ _ Hm1 Hm0). pose proof (two_digits_inj _ _ Hd1 Hd0).
  lia.
Qed.

Lemma getRocDate_dayOrd a b :
  validDate a -> validDate b -> getRocDate a = getRocDate b ->
  dayOrd a = dayOrd b.
Proof.
  intros Ha Hb (Hy & Hm & Hd)%getRocDate_inj; [|done..].
  unfold dayOrd. by rewrite Hy, Hm, Hd.
Qed.
End rocdate_inj.

(** ** Reading back what was written *)
Section roundtrip.
Implicit Types (dm : DataMap) (k l line : jsstring) (ls : list jsstring).

Lemma split_line l rest :
  noLf l = true -> split Ch.lf (l ++ Ch.lf :: rest) = l :: split Ch.lf rest.
Proof.
  induction l as [|c l IH]; intros Hl; simpl.
  - done.
  - simpl in Hl. apply andb_true_iff in Hl as [Hc Hl].
    apply negb_true_iff in Hc. rewrite Hc, IH by done. done.
Qed.

Lemma split_lines ls :
  forallb noLf ls = true ->
  split Ch.lf (concat (map (fun line => line ++ [Ch.lf]) ls)) = ls ++ [[]].
Proof.
  induction ls as [|l ls IH]; intros Hls; simpl; [done|].
  simpl in Hls. apply andb_true_iff in Hls as [Hl Hls].
  rewrite <- app_assoc. simpl. by rewrite split_line, IH.
Qed.

Lemma lineOK_spec k l :
  lineOK k l = true <->
  trim l = l /\ noLf l = true /\ -1 < indexOf Ch.comma l /\ keyOf l = k.
Proof.
  unfold lineOK.
  rewrite !andb_true_iff, !bool_decide_eq_true, Z.ltb_lt. tauto.
Qed.

Lemma lineOK_nonBlank k l : lineOK k l = true -> nonBlank l = true.
Proof.
  intros (Ht & _ & Hi & _)%lineOK_spec. unfold nonBlank. rewrite Ht.
  destruct l; [simpl in Hi; lia | done].
Qed.

Lemma lineOK_noLf k l : lineOK k l = true -> noLf l = true.
Proof. by intros (_ & H & _)%lineOK_spec. Qed.

(** [load] files a well-formed line unchanged under its key. *)
Lemma loadLine_ok k l dm :
  lineOK k l = true -> loadLine dm l = push k l (ensure k dm).
Proof.
  intros (Ht & _ & Hi & Hk)%lineOK_spec. unfold loadLine. rewrite Ht.
  apply Z.ltb_lt in Hi as ->. unfold keyOf in Hk. by rewrite Hk.
Qed.

Lemma load_bucket_old k ls dm pre :
  forallb (lineOK k) ls = true -> dm !! k = Some pre ->
  fold_left loadLine ls dm = <[k := pre ++ ls]> dm.
Proof.
  revert dm pre. induction ls as [|l ls IH]; intros dm pre Hls Hk; simpl.
  - by rewrite app_nil_r, insert_id.
  - simpl in Hls. apply andb_true_iff in Hls as [Hl Hls].
    rewrite (loadLine_ok k) by done.
    assert (ensure k dm = dm) as ->.
    { unfold ensure. by rewrite (proj2 (has_true dm k)) by eauto. }
    unfold push. erewrite (IH _ (pre ++ [l])); [|done|].
    + rewrite <- app_assoc. simpl.
      apply map_eq. intros i. destruct (decide (k = i)) as [->|Hne].
      * by rewrite !lookup_insert_eq.
      * by rewrite !lookup_insert_ne, lookup_alter_ne.
    + by rewrite lookup_alter_eq, Hk.
Qed.

Lemma load_bucket_new k ls dm :
  forallb (lineOK k) ls = true -> dm !! k = None ->
  fold_left loadLine ls dm = match ls with [] => dm | _ => <[k := ls]> dm end.
Proof.
  destruct ls as [|l ls]; intros Hls Hk; [done|].
  simpl in Hls. apply andb_true_iff in Hls as [Hl Hls]. simpl.
  rewrite (loadLine_ok k) by done.
  assert (ensure k dm = <[k := []]> dm) as ->.
  { unfold ensure. by rewrite (proj2 (has_false dm k)). }
  rewrite (load_bucket_old k ls _ [l]); [|done|].
  - unfold push. apply map_eq. intros i. destruct (decide (k = i)) as [->|Hne].
    + by rewrite !lookup_insert_eq.
    + by rewrite !lookup_insert_ne, lookup_alter_ne, lookup_insert_ne.
  - unfold push. by rewrite lookup_alter_eq, lookup_insert_eq.
Qed.

(** Reading the lines of distinct buckets, bucket after bucket. *)
Lemma load_buckets (bucket : jsstring -> list jsstring) (dates : list jsstring) :
  NoDup dates ->
  (forall k, k ∈ dates -> forallb (lineOK k) (bucket k) = true) ->
  forall acc,
    (forall k, k ∈ dates -> acc !! k = None) ->
    forall k,
      fold_left loadLine (flat_map bucket dates) acc !! k =
      if decide (k ∈ dates /\ bucket k <> []) then Some (bucket k) else acc !! k.
Proof.
  induction 1 as [|d dates Hd Hnd IH]; intros Hok acc Hacc k;
    cbn [flat_map fold_left].
  - destruct (decide _) as [[H _]|]; [|done]. by apply not_elem_of_nil in H.
  - rewrite fold_left_app.
    rewrite (load_bucket_new d (bucket d));
      [| apply Hok, list_elem_of_here | apply Hacc, list_elem_of_here].
    rewrite IH; cycle 1.
    { intros k' Hk'. apply Hok. by apply list_elem_of_further. }
    { intros k' Hk'. assert (d <> k') by (intros ->; done).
      destruct (bucket d); [|rewrite lookup_insert_ne by done];
        apply Hacc; by apply list_elem_of_further. }
    destruct (decide (k ∈ dates /\ bucket k <> [])) as [[Hin Hne]|Hn1];
      destruct (decide (k ∈ d :: dates /\ bucket k <> [])) as [[Hin2 Hne2]|Hn2].
    + done.
    + destruct Hn2. split; [by apply list_elem_of_further | done].
    + apply elem_of_cons in Hin2 as [-> | Hin2]; [|tauto].
      destruct (bucket d) eqn:E; [done|]. by rewrite lookup_insert_eq.
    + destruct (bucket d) eqn:E; [done|].
      rewrite lookup_insert_ne; [done|]. intros ->.
      destruct Hn2. split; [apply list_elem_of_here | by rewrite E].
Qed.
End roundtrip.

Section roundtrip_store.
Implicit Types (dm : DataMap) (k l line : jsstring) (ls : list jsstring).

Lemma headerRow_split (rest : jsstring) :
  split Ch.lf (headerRow ++ rest) =
  str "Date,Market,Code,Name,Variety,High,Mid,Low,Avg,Volume"
  :: split Ch.lf rest.
Proof.
  unfold headerRow. rewrite <- app_assoc. by apply split_line.
Qed.

Lemma filter_nonBlank_lines ls :
  forallb nonBlank ls = true -> List.filter nonBlank (ls ++ [[]]) = ls.
Proof.
  induction ls as [|l ls IH]; intros Hls; simpl; [done|].
  simpl in Hls. apply andb_true_iff in Hls as [-> Hls]. by rewrite IH.
Qed.

(** The lines of the buckets in the order [dates], as they follow the header
    row in the file. *)
Lemma bucketText_lines dm (dates : list jsstring) :
  concat (map (bucketText dm) dates) =
  concat (map (fun line => line ++ [Ch.lf])
              (flat_map (fun k => default [] (dm !! k)) dates)).
Proof.
  induction dates as [|d dates IH]; simpl; [done|].
  rewrite map_app, concat_app, IH. done.
Qed.

Lemma wellKeyed_bucket dm k :
  wellKeyed dm -> forallb (lineOK k) (default [] (dm !! k)) = true.
Proof.
  intros Hwk. destruct (dm !! k) as [ls|] eqn:E; [|done].
  apply (map_Forall_lookup_1 _ dm k ls Hwk E).
Qed.

Lemma forallb_flat_map {A B} (p : B -> bool) (f : A -> list B) (l : list A) :
  (forall x, forallb p (f x) = true) -> forallb p (flat_map f l) = true.
Proof.
  intros Hf. induction l as [|x l IH]; simpl; [done|].
  by rewrite forallb_app, Hf, IH.
Qed.

Lemma forallb_impl {A} (p q : A -> bool) (l : list A) :
  (forall x, p x = true -> q x = true) ->
  forallb p l = true -> forallb q l = true.
Proof.
  intros Hpq. induction l as [|x l IH]; simpl; [done|].
  intros [Hx Hl]%andb_true_iff. by rewrite (Hpq x Hx), IH.
Qed.

Lemma sortedDates_elem dm k : k ∈ sortedDates dm <-> is_Some (dm !! k).
Proof. by rewrite sortedDates_Permutation, <- has_keys, has_true. Qed.

(** What [load] finds in the file that [flush] wrote for a well-keyed
    store. *)
Lemma load_flush_lookup dm old k :
  wellKeyed dm ->
  load (flush dm old) !! k =
  match dm !! k with
  | Some (l :: ls) => Some (l :: ls)
  | _ => None
  end.
Proof.
  intros Hwk. rewrite flush_eq. unfold load.
  rewrite headerRow_split, bucketText_lines.
  set (bucket := fun k => default [] (dm !! k)).
  assert (forall k, forallb (lineOK k) (bucket k) = true) as Hok
    by (intros; by apply wellKeyed_bucket).
  rewrite split_lines; cycle 1.
  { apply forallb_flat_map. intros d.
    eapply forallb_impl; [apply lineOK_noLf | apply Hok]. }
  cbn [List.filter]. change (nonBlank _) with true at 1. cbn [drop].
  rewrite filter_nonBlank_lines; cycle 1.
  { apply forallb_flat_map. intros d.
    eapply forallb_impl; [apply lineOK_nonBlank | apply Hok]. }
  rewrite drop_0, (load_buckets bucket);
    [| apply sortedDates_NoDup | auto | intros; apply lookup_empty].
  rewrite lookup_empty. unfold bucket.
  destruct (decide _) as [[Hin Hne]|Hn].
  - destruct (dm !! k) as [[|l ls]|]; done.
  - destruct (dm !! k) as [[|l ls]|] eqn:E; try done.
    destruct Hn. split; [|done].
    apply sortedDates_elem. by rewrite E.
Qed.

Lemma load_flush dm old :
  wellKeyed dm ->
  load (flush dm old) =
  filter (fun kv : list N * list (list N) => kv.2 <> []) dm.
Proof.
  intros Hwk. apply map_eq. intros k.
  rewrite load_flush_lookup, map_lookup_filter by done.
  by destruct (dm !! k) as [[|l ls]|].
Qed.

Lemma StronglySorted_filter {A} (R : relation A) (P : A -> Prop)
    `{!forall x, Decision (P x)} (l : list A) :
  StronglySorted R l -> StronglySorted R (filter P l).
Proof.
  induction 1 as [|x l Hl IH Hx]; [constructor|].
  rewrite filter_cons. case_decide; [|done].
  constructor; [done|]. rewrite Forall_forall in Hx |- *.
  intros y [_ Hy]%list_elem_of_filter. auto.
Qed.

Lemma concat_map_filter {A B} (P : A -> Prop) `{!forall x, Decision (P x)}
    (f f' : A -> list B) (l : list A) :
  (forall x, x ∈ l -> P x -> f' x = f x) ->
  (forall x, x ∈ l -> ~ P x -> f x = []) ->
  concat (map f' (filter P l)) = concat (map f l).
Proof.
  induction l as [|x l IH]; intros H1 H2; [done|].
  assert (concat (map f' (filter P l)) = concat (map f l)) as IH'.
  { apply IH; intros y Hy; [apply H1 | apply H2]; by apply list_elem_of_further. }
  rewrite filter_cons. cbn [map concat]. rewrite <- IH'.
  case_decide.
  - cbn [map concat]. rewrite H1; [done | apply list_elem_of_here | done].
  - rewrite H2; [done | apply list_elem_of_here | done].
Qed.

(** Dropping the empty buckets does not change what is written. *)
Lemma flush_nonempty dm old :
  flush (filter (fun kv : list N * list (list N) => kv.2 <> []) dm) old =
  flush dm old.
Proof.
  set (dm' := filter _ dm). rewrite !flush_eq. do 2 f_equal.
  set (P := fun k : list N => default [] (dm !! k) <> []).
  assert (forall k, dm' !! k = match dm !! k with
                                | Some (l :: ls) => Some (l :: ls)
                                | _ => None
                                end) as Hlook.
  { intros k. unfold dm'. rewrite map_lookup_filter.
    by destruct (dm !! k) as [[|l ls]|]. }
  assert (sortedDates dm' = filter P (sortedDates dm)) as ->.
  { symmetry. apply sortedDates_unique.
    - apply NoDup_Permutation.
      + apply NoDup_filter, sortedDates_NoDup.
      + apply keys_NoDup.
      + intros k. rewrite list_elem_of_filter, sortedDates_elem, <- has_keys,
          has_true, Hlook. unfold P.
        destruct (dm !! k) as [[|l ls]|]; simpl;
          rewrite <- ?not_eq_None_Some; split; try tauto; try done.
    - apply StronglySorted_filter, sortedDates_sorted. }
  apply concat_map_filter; unfold P, bucketText; intros k _ Hk.
  - rewrite Hlook. by destruct (dm !! k) as [[|l ls]|].
  - destruct (default [] (dm !! k)); [done|]. by destruct Hk.
Qed.
End roundtrip_store.

(** C7, as the specification states it, fails: a name cell with a line feed
    is written on two lines, the second of which is read back under another
    key; the store merged from such a row is not written the same way after
    it has been read back. *)
Lemma roundtrip_breaks_on_multiline_cell :
  flush (load (flush Ex.brokenStore None)) None <> flush Ex.brokenStore None.
Proof. apply (bool_decide_eq_false_1 _). vm_compute. reflexivity. Qed.

(** C7, amended: for every store whose lines are filed under their own first
    field (each line trimmed, on one line, with a separator, and with the
    bucket's key as first field without quotes), reading back what was
    written gives the store without its empty buckets, and writing that again
    gives the same file. *)
Theorem serialize_load_roundtrip (S : DataMap) (old old' : File)
    (Hwk : wellKeyed S) :
  load (flush S old) =
    filter (fun kv : list N * list (list N) => kv.2 <> []) S /\
  flush (load (flush S old)) old' = flush S old.
Proof.
  split; [by apply load_flush|].
  rewrite load_flush by done. rewrite flush_nonempty. by rewrite !flush_eq.
Qed.

Lemma serialize_load_roundtrip_witness :
  flush (load (flush Ex.goodStore None)) None = flush Ex.goodStore None.
Proof.
  apply (serialize_load_roundtrip Ex.goodStore None None).
  apply (bool_decide_unpack _). vm_compute. reflexivity.
Defined.

(** ** Every store read from a file is well keyed *)
Section load_wellKeyed.
Implicit Types (dm : DataMap) (k l line s : jsstring) (c : N).

Lemma trimStart_length l : (length (trimStart l) <= length l)%nat.
Proof.
  induction l as [|c l IH]; simpl; [lia|]. destruct (is_ws c); simpl; lia.
Qed.

Lemma trimStart_idem l : trimStart (trimStart l) = trimStart l.
Proof.
  induction l as [|c l IH]; simpl; [done|].
  destruct (is_ws c) eqn:E; [done|]. simpl. by rewrite E.
Qed.

Lemma trimStart_cons_fixed c l :
  trimStart (c :: l) = c :: l -> is_ws c = false.
Proof.
  simpl. destruct (is_ws c); [|done]. intros H.
  pose proof (trimStart_length l) as Hlen. rewrite H in Hlen. simpl in Hlen. lia.
Qed.

Lemma trimStart_snoc u c :
  is_ws c = false -> exists v, trimStart (u ++ [c]) = v ++ [c].
Proof.
  intros Hc. induction u as [|x u IH]; simpl.
  - exists []. by rewrite Hc.
  - destruct (is_ws x); [done|]. by exists (x :: u).
Qed.

Lemma trimEnd_keeps_head l :
  trimStart l = l -> trimStart (trimEnd l) = trimEnd l.
Proof.
  destruct l as [|c l]; [done|]. intros Hc%trimStart_cons_fixed.
  unfold trimEnd. simpl rev.
  destruct (trimStart_snoc (rev l) c Hc) as [v ->].
  rewrite rev_app_distr. simpl. by rewrite Hc.
Qed.

Lemma trimEnd_idem l : trimEnd (trimEnd l) = trimEnd l.
Proof. unfold trimEnd. by rewrite rev_involutive, trimStart_idem. Qed.

Lemma trim_idem l : trim (trim l) = trim l.
Proof.
  unfold trim. rewrite trimEnd_keeps_head by apply trimStart_idem.
  apply trimEnd_idem.
Qed.

Lemma noLf_trimStart l : noLf l = true -> noLf (trimStart l) = true.
Proof.
  unfold noLf. induction l as [|c l IH]; simpl; [done|].
  intros [Hc Hl]%andb_true_iff. destruct (is_ws c); [auto|].
  simpl. by rewrite Hc, Hl.
Qed.

Lemma noLf_rev l : noLf (rev l) = noLf l.
Proof.
  unfold noLf. induction l as [|c l IH]; simpl; [done|].
  rewrite forallb_app, IH. simpl. by rewrite andb_true_r, andb_comm.
Qed.

Lemma noLf_trim l : noLf l = true -> noLf (trim l) = true.
Proof.
  intros H. unfold trim, trimEnd. rewrite noLf_rev.
  apply noLf_trimStart. rewrite noLf_rev. by apply noLf_trimStart.
Qed.

Lemma split_noLf s : forallb noLf (split Ch.lf s) = true.
Proof.
  induction s as [|x s IH]; simpl; [done|].
  destruct (N.eqb_spec x Ch.lf) as [->|Hne]; [done|].
  destruct (split Ch.lf s) as [|h t]; simpl in *.
  - apply N.eqb_neq in Hne. by rewrite Hne.
  - apply N.eqb_neq in Hne. by rewrite Hne.
Qed.

Lemma lookup_push_ensure k line dm (i : jsstring) :
  push k line (ensure k dm) !! i =
  if decide (k = i) then Some (default [] (dm !! k) ++ [line]) else dm !! i.
Proof.
  unfold push, ensure. destruct (has dm k) eqn:Hk.
  - apply has_true in Hk as [ls Hls]. case_decide as E.
    + subst. by rewrite lookup_alter_eq, Hls.
    + by rewrite lookup_alter_ne.
  - apply has_false in Hk. case_decide as E.
    + subst. by rewrite lookup_alter_eq, lookup_insert_eq, Hk.
    + by rewrite lookup_alter_ne, lookup_insert_ne.
Qed.

Lemma loadLine_wellKeyed dm l :
  noLf l = true -> wellKeyed dm -> wellKeyed (loadLine dm l).
Proof.
  intros Hl Hwk. unfold loadLine.
  destruct (Z.ltb_spec (-1) (indexOf Ch.comma (trim l))) as [Hi|]; [|done].
  set (k := removeQuotes _).
  apply map_Forall_lookup. intros i ls. rewrite lookup_push_ensure.
  case_decide as E.
  - subst i. intros [= <-]. rewrite forallb_app. apply andb_true_iff. split.
    + by apply wellKeyed_bucket.
    + simpl. rewrite andb_true_r. apply lineOK_spec.
      split_and!; auto using trim_idem, noLf_trim.
  - intros Hi'. apply (map_Forall_lookup_1 _ dm i ls Hwk Hi').
Qed.

Lemma load_wellKeyed (file : File) : wellKeyed (load file).
Proof.
  unfold load. destruct file as [content|]; [|apply map_Forall_empty].
  assert (Forall (fun l => noLf l = true)
                 (drop 1 (List.filter nonBlank (split Ch.lf content))))
    as Hlines.
  { apply Forall_drop, Forall_forall. intros l Hl.
    apply list_elem_of_In, filter_In in Hl as [Hl _].
    pose proof (split_noLf content) as H. rewrite forallb_forall in H. auto. }
  revert Hlines. generalize (drop 1 (List.filter nonBlank (split Ch.lf content))).
  intros ls. assert (wellKeyed (∅ : DataMap)) as H0 by apply map_Forall_empty.
  revert H0. generalize (∅ : DataMap).
  induction ls as [|l ls IH]; intros dm Hdm Hls; simpl; [done|].
  apply Forall_cons in Hls as [Hl Hls].
  apply IH; auto using loadLine_wellKeyed.
Qed.

(** What has been read from a file and written is read and written again
    the same. *)
Lemma load_flush_load (file old old' : File) :
  flush (load (flush (load file) old)) old' = flush (load file) old.
Proof.
  rewrite load_flush by apply load_wellKeyed.
  rewrite flush_nonempty. by rewrite !flush_eq.
Qed.
End load_wellKeyed.

(** ** Failures of single queries *)
Section isolation.
Context (w : World).
Implicit Types (ms : list Market) (d : jsstring) (st : St) (dm : DataMap).

Lemma unitsOf_cons ms d (dates : list jsstring) :
  unitsOf ms (d :: dates) = map (pair d) ms ++ unitsOf ms dates.
Proof. reflexivity. Qed.

(** The queries that the loop sends are those of the dates planned against
    the store it starts from: what the source answers changes nothing to
    them. *)
Lemma crawl_plan fuel ms lb dm0 cur st st' :
  validDate cur ->
  (forall day, validDate day -> dayOrd day <= dayOrd cur ->
     has (dataMap st) (getRocDate day) = has dm0 (getRocDate day)) ->
  crawl fuel w ms lb cur st = Some st' ->
  exists dates,
    plan fuel dm0 lb cur = Some dates /\
    units st' = units st ++ unitsOf ms dates.
Proof.
  revert cur st. induction fuel as [|fuel IH]; intros cur st Hcur Hinv; simpl.
  - destruct (Date_geb cur lb); [done|]. intros [= <-].
    exists []. by rewrite app_nil_r.
  - destruct (Date_geb cur lb); cycle 1.
    { intros [= <-]. exists []. by rewrite app_nil_r. }
    pose proof (dayOrd_prevDay cur Hcur) as Hprev.
    rewrite <- (Hinv cur Hcur) by lia.
    destruct (has (dataMap st) (getRocDate cur)) eqn:Hhas; intros Hrun.
    + apply IH in Hrun as (dates & -> & ->); auto using prevDay_valid.
      * by exists dates.
      * intros day Hday Hle. apply Hinv; [done | lia].
    + apply IH in Hrun as (dates & -> & ->); auto using prevDay_valid.
      * exists (getRocDate cur :: dates). split; [done|].
        by rewrite units_processDate, unitsOf_cons, app_assoc.
      * intros day Hday Hle. rewrite has_processDate_other.
        { apply Hinv; [done | lia]. }
        intros Heq. apply getRocDate_dayOrd in Heq; [lia | done | done].
Qed.






End isolation.




(** ** The file that is written *)
Lemma StronglySorted_NoDup_impl_in {A} (R R' : relation A) (l : list A) :
  (forall x y, x ∈ l -> y ∈ l -> R x y -> x <> y -> R' x y) ->
  StronglySorted R l -> NoDup l -> StronglySorted R' l.
Proof.
  intros HR Hs. induction Hs as [|x l Hl IH Hx]; intros Hnd; [constructor|].
  apply NoDup_cons in Hnd as [Hnotin Hnd]. constructor.
  - apply IH; [|done]. intros a b Ha Hb.
    apply HR; by apply list_elem_of_further.
  - rewrite Forall_forall in Hx |- *. intros y Hy.
    apply HR; [apply list_elem_of_here | by apply list_elem_of_further | auto |].
    intros ->. done.
Qed.

Lemma StronglySorted_impl_in {A} (R R' : relation A) (l : list A) :
  (forall x y, x ∈ l -> y ∈ l -> R x y -> R' x y) ->
  StronglySorted R l -> StronglySorted R' l.
Proof.
  intros HR Hs. induction Hs as [|x l Hl IH Hx]; [constructor|]. constructor.
  - apply IH. intros a b Ha Hb. apply HR; by apply list_elem_of_further.
  - rewrite Forall_forall in Hx |- *. intros y Hy.
    apply HR; [apply list_elem_of_here | by apply list_elem_of_further | auto].
Qed.

Section serialization.
Implicit Types (dm : DataMap) (dates : list jsstring) (x y k : jsstring).

(** The dates in the order of writing are the keys that the store holds,
    each once, every one after those that follow it in the order of the
    texts. *)
Lemma sortedDates_laterText dm : StronglySorted laterText (sortedDates dm).
Proof.
  eapply StronglySorted_NoDup_impl;
    [| apply sortedDates_sorted | apply sortedDates_NoDup].
  intros x y Hyx Hne. split; [done | by intros ->].
Qed.

Lemma listing_unique dm dates :
  NoDup dates -> (forall k, k ∈ dates <-> is_Some (dm !! k)) ->
  StronglySorted (flip str_le) dates -> dates = sortedDates dm.
Proof.
  intros Hnd Hin Hs. apply sortedDates_unique; [|done].
  rewrite <- sortedDates_Permutation.
  apply NoDup_Permutation; [done | apply sortedDates_NoDup |].
  intros k. by rewrite Hin, sortedDates_elem.
Qed.

Lemma chrono_lt_fields (a a' b b' : Date) :
  getFullYear a = getFullYear a' /\ getMonth a = getMonth a' /\
  getDate a = getDate a' ->
  getFullYear b = getFullYear b' /\ getMonth b = getMonth b' /\
  getDate b = getDate b' ->
  chrono_lt a b -> chrono_lt a' b'.
Proof. unfold chrono_lt. lia. Qed.

(** In a store whose keys are keys of days with era years of equally many
    digits, the order of the texts and the order of the days agree. *)
Lemma dateKeyed_order n dm x y :
  dateKeyed n dm -> is_Some (dm !! x) -> is_Some (dm !! y) -> x <> y ->
  (str_le y x <-> laterKey x y).
Proof.
  intros Hkeys Hx Hy Hne.
  destruct (Hkeys x Hx) as (a & Ha & ->), (Hkeys y Hy) as (b & Hb & ->).
  split.
  - intros Hle. exists a, b.
    split_and!; [apply Ha | apply Hb | done | done |].
    destruct (chrono_trichotomy a b) as [Hlt | [Hlt | (Hy' & Hm & Hd)]].
    + apply (getRocDate_mono n) in Hlt as [Hle' _]; auto.
      destruct Hne. by apply str_leb_antisym.
    + done.
    + destruct Hne. by apply getRocDate_same_day.
  - intros (a' & b' & Ha' & Hb' & Hxa & Hyb & Hlt).
    apply getRocDate_inj in Hxa; [| apply Ha | done].
    apply getRocDate_inj in Hyb; [| apply Hb | done].
    assert (chrono_lt b a) as Hlt'.
    { apply (chrono_lt_fields b' b a' a); [lia | lia | done]. }
    by apply (getRocDate_mono n) in Hlt' as [Hle _].
Qed.
End serialization.

(** C3, as the specification states it, fails in two ways.  The history
    crawler, the second place that the claim cites, does not rewrite the
    file: started on a file without header it leaves what the file held and
    puts the rows it finds after it, which is the file of no store.  And the
    incremental crawler orders the buckets as texts, not as dates: the bucket
    of the last day of 2010, era year 99, is written before the bucket of the
    first day of 2011, era year 100, so that the file is not the
    serialization of the store by date descending. *)
Lemma history_appends_and_keys_sort_as_texts :
  (fst <$> History.main 1061 Ex.worldFirstFails (Some Ex.junk) =
     Some (Some (Ex.junk ++ Csv.stringify Ex.historyRows)) /\
   Csv.stringify Ex.historyRows <> [] /\
   forall dm old,
     flush dm old <> Some (Ex.junk ++ Csv.stringify Ex.historyRows)) /\
  (getRocDate Ex.day2010 = str "99/12/31" /\
   getRocDate Ex.day2011 = str "100/01/01" /\
   chrono_lt Ex.day2010 Ex.day2011 /\
   flush Ex.centuryStore None =
     Some (headerRow ++ (Ex.line99 ++ [Ch.lf]) ++ (Ex.line100 ++ [Ch.lf])) /\
   ~ serializes Ex.centuryStore
       (headerRow ++ (Ex.line99 ++ [Ch.lf]) ++ (Ex.line100 ++ [Ch.lf]))).
Proof.
  split; split_and!.
  - vm_compute. reflexivity.
  - discriminate.
  - intros dm old. rewrite flush_eq. intros H.
    apply (f_equal (fun c => hd 0%N (default [] c))) in H. discriminate H.
  - reflexivity.
  - reflexivity.
  - left. reflexivity.
  - vm_compute. reflexivity.
  - intros (dates & Hnd & Hin & Hs & Heq).
    assert (dates = sortedDates Ex.centuryStore \/
            dates = rev (sortedDates Ex.centuryStore)) as [-> | ->].
    { assert (dates ≡ₚ [str "99/12/31"; str "100/01/01"]) as Hp.
      { apply NoDup_Permutation; [done | |].
        - apply NoDup_ListNoDup.
          repeat constructor; simpl; intuition discriminate.
        - intros k. rewrite Hin, <- has_true, has_keys.
          assert (keys Ex.centuryStore = [str "99/12/31"; str "100/01/01"] \/
                  keys Ex.centuryStore = [str "100/01/01"; str "99/12/31"])
            as [-> | ->] by (vm_compute; auto).
          + done.
          + rewrite !elem_of_cons, !elem_of_nil. tauto. }
      assert (sortedDates Ex.centuryStore = [str "99/12/31"; str "100/01/01"])
        as -> by (vm_compute; reflexivity).
      symmetry in Hp.
      apply Permutation_length_2_inv in Hp as [-> | ->]; [by left | by right]. }
    + assert (sortedDates Ex.centuryStore = [str "99/12/31"; str "100/01/01"])
        as Hsd by (vm_compute; reflexivity).
      rewrite Hsd in Hs. apply StronglySorted_inv in Hs as [_ Hfirst].
      apply Forall_cons in Hfirst
        as [(a & b & Ha & Hb & Hxa & Hyb & Hlt) _].
      apply (getRocDate_inj Ex.day2010 a) in Hxa;
        [| unfold validDate; simpl; split_and!; lia || (vm_compute; discriminate)
         | done].
      apply (getRocDate_inj Ex.day2011 b) in Hyb;
        [| unfold validDate; simpl; split_and!; lia || (vm_compute; discriminate)
         | done].
      simpl in Hxa, Hyb. unfold chrono_lt in Hlt. lia.
    + apply (f_equal (fun c => nth 55 c 0%N)) in Heq. vm_compute in Heq.
      discriminate Heq.
Qed.

(** C3, amended: whatever the file held, after [flush] of the incremental
    crawler it holds the header row followed by the rows of every bucket of
    the store, each bucket once, with its rows in their order, the buckets
    from the last key to the first in the order of the texts, and nothing
    else; no other content lists the store in that way, the old content
    plays no part, and for the empty store the file is the header row.  When
    the keys of the store are keys of days from 1911 on whose era years have
    equally many digits, this is the serialization of the specification, by
    date descending, and the only one.  The history crawler keeps no store
    and does not rewrite: the rows of a query are put after what the file
    holds. *)
Theorem flush_rewrites_whole_file (dm : DataMap) (old : File) :
  (exists content,
     flush dm old = Some content /\
     serializesBy laterText dm content /\
     (forall c, serializesBy laterText dm c -> c = content) /\
     (forall n, dateKeyed n dm ->
        serializes dm content /\ (forall c, serializes dm c -> c = content))) /\
  flush dm old = flush dm None /\
  flush ∅ old = Some headerRow /\
  (forall w d (st : History.St) m s' rows,
     queryUnit w (History.requests st) d m (History.session st) =
       Some (s', rows) ->
     rows <> [] ->
     History.file (History.processUnit w d st m) =
       Some (default [] (History.file st) ++ Csv.stringify rows)).
Proof.
  split_and!.
  - eexists. split; [apply flush_eq|]. split_and!.
    + exists (sortedDates dm). split_and!;
        [apply sortedDates_NoDup | apply sortedDates_elem
         | apply sortedDates_laterText | done].
    + intros c (dates & Hnd & Hin & Hs & ->).
      rewrite (listing_unique dm dates); auto.
      eapply StronglySorted_impl_in; [|exact Hs]. by intros x y _ _ [Hle _].
    + intros n Hkeys. split.
      * exists (sortedDates dm). split_and!;
          [apply sortedDates_NoDup | apply sortedDates_elem | | done].
        eapply StronglySorted_NoDup_impl_in;
          [| apply sortedDates_sorted | apply sortedDates_NoDup].
        intros x y Hx Hy Hle Hne.
        apply (dateKeyed_order n dm); auto; by apply sortedDates_elem.
      * intros c (dates & Hnd & Hin & Hs & ->).
        rewrite (listing_unique dm dates); auto.
        eapply StronglySorted_NoDup_impl_in; [| exact Hs | exact Hnd].
        intros x y Hx Hy Hlater Hne.
        apply (dateKeyed_order n dm); auto; by apply Hin.
  - by rewrite !flush_eq.
  - rewrite flush_eq. unfold sortedDates. rewrite keys_empty.
    reflexivity.
  - apply History_processUnit_appends.
Qed.

Lemma flush_rewrites_whole_file_witness :
  serializes Ex.goodStore (default [] (flush Ex.goodStore (Some Ex.junk))) /\
  History.file
    (History.processUnit Ex.worldFirstFails (str "113/11/26")
       (History.mkSt (Some Ex.junk) Ex.prevSession 1 []) Ex.market2) =
  Some (Ex.junk ++ Csv.stringify Ex.historyRows).
Proof.
  destruct (flush_rewrites_whole_file Ex.goodStore (Some Ex.junk))
    as ((content & Hflush & _ & _ & Hdates) & _ & _ & Hhistory).
  split.
  - rewrite Hflush. simpl default. apply (Hdates 3%nat).
    intros k Hk. apply has_true, has_keys in Hk.
    assert (keys Ex.goodStore = [str "113/11/29"; str "113/11/28"] \/
            keys Ex.goodStore = [str "113/11/28"; str "113/11/29"])
      as Hkeys by (vm_compute; auto).
    assert (k = getRocDate Ex.today \/ k = getRocDate (mkDate 2024 10 28 0))
      as [-> | ->].
    { destruct Hkeys as [Hkeys | Hkeys]; rewrite Hkeys in Hk;
        rewrite !elem_of_cons, elem_of_nil in Hk; tauto. }
    + exists Ex.today. split; [|done].
      split; [|split; [simpl; lia | reflexivity]].
      unfold validDate; simpl. split_and!; lia || (vm_compute; discriminate).
    + exists (mkDate 2024 10 28 0). split; [|done].
      split; [|split; [simpl; lia | reflexivity]].
      unfold validDate; simpl. split_and!; lia || (vm_compute; discriminate).
  - apply (Hhistory Ex.worldFirstFails (str "113/11/26")
             (History.mkSt (Some Ex.junk) Ex.prevSession 1 []) Ex.market2
             (refresh (mkResponse None (Ex.pageOf [Ex.onionRow])) Ex.prevSession)
             Ex.historyRows).
    + reflexivity.
    + discriminate.
Defined.

(** * Further properties of the crawlers *)

(** ** The market catalog *)





(** ** Cookies *)

Lemma split_at_sep (c : N) (a rest : jsstring) :
  lacks c a = true -> split c (a ++ c :: rest) = a :: split c rest.
Proof.
  induction a as [|x a IH]; intros Ha; simpl.
  - by rewrite N.eqb_refl.
  - simpl in Ha. apply andb_true_iff in Ha as [Hx Ha].
    apply negb_true_iff in Hx. rewrite Hx, IH by done. done.
Qed.

Lemma split_no_sep (c : N) (a : jsstring) :
  lacks c a = true -> split c a = [a].
Proof.
  induction a as [|x a IH]; intros Ha; simpl; [done|].
  simpl in Ha. apply andb_true_iff in Ha as [Hx Ha].
  apply negb_true_iff in Hx. rewrite Hx, IH by done. done.
Qed.

Lemma cookieLine_first nv attrs :
  lacks Ch.semicolon nv = true ->
  hd [] (split Ch.semicolon (cookieLine nv attrs)) = nv.
Proof.
  intros Hnv. destruct attrs as [a|]; simpl.
  - by rewrite split_at_sep.
  - by rewrite split_no_sep.
Qed.

(** X2: of every cookie of the header only the pair name=value before the
    first semicolon is kept, the attributes are dropped, and the pairs are
    joined in the order of the header. *)
Theorem captureCookies_drops_attributes (cs : list (list N * option (list N))) :
  forallb (fun c => lacks Ch.semicolon c.1) cs = true ->
  captureCookies (map (fun c => cookieLine c.1 c.2) cs) =
  join [Ch.semicolon; Ch.space] (map fst cs).
Proof.
  intros Hcs. unfold captureCookies. f_equal. rewrite map_map.
  induction cs as [|[nv attrs] cs IH]; simpl; [done|].
  simpl in Hcs. apply andb_true_iff in Hcs as [Hnv Hcs].
  by rewrite cookieLine_first, IH.
Qed.

Lemma captureCookies_drops_attributes_witness :
  captureCookies [str "sid=2; path=/; HttpOnly"; str "b=3"] = str "sid=2; b=3".
Proof.
  apply (captureCookies_drops_attributes
           [(str "sid=2", Some (str " path=/; HttpOnly")); (str "b=3", None)]).
  reflexivity.
Defined.

(** ** Tokens through a run *)
Section tokens.
Context (w : World) (tok : Session -> option (list N)).
Hypothesis tok_refresh :
  forall res s, truthy (tok s) = true -> truthy (tok (refresh res s)) = true.

Lemma tok_processUnit d st m :
  truthy (tok (session st)) = true ->
  truthy (tok (session (processUnit w d st m))) = true.
Proof.
  intros H. unfold processUnit, queryUnit.
  destruct (post w _ _) as [res|]; simpl; auto.
Qed.

Lemma tok_processDate ms d st :
  truthy (tok (session st)) = true ->
  truthy (tok (session (processDate w ms d st))) = true.
Proof.
  unfold processDate. revert st.
  induction ms as [|m ms IH]; intros st H; simpl; auto using tok_processUnit.
Qed.

Lemma tok_crawl fuel ms lb cur st st' :
  crawl fuel w ms lb cur st = Some st' ->
  truthy (tok (session st)) = true -> truthy (tok (session st')) = true.
Proof.
  revert cur st. induction fuel as [|fuel IH]; intros cur st; simpl.
  - destruct (Date_geb cur lb); [done|]. by intros [= <-].
  - destruct (Date_geb cur lb); [|by intros [= <-]].
    destruct (has (dataMap st) (getRocDate cur)).
    + apply IH.
    + intros Hrun H. eapply IH; eauto using tok_processDate.
Qed.
End tokens.

Lemma truthy_js_or (found prev : option (list N)) :
  truthy prev = true -> truthy (js_or found prev) = true.
Proof. unfold js_or. by destruct (truthy found) eqn:E. Qed.

(** X3: a token that is set, neither undefined nor empty, when the loop
    starts is set when the loop ends, whatever the source answers in
    between: no response and no failure clears a token. *)
Theorem tokens_never_cleared (fuel : nat) (w : World) (ms : list Market)
    (lb cur : Date) (st st' : St) :
  crawl fuel w ms lb cur st = Some st' ->
  (truthy (viewstate (session st)) = true ->
   truthy (viewstate (session st')) = true) /\
  (truthy (viewstateGenerator (session st)) = true ->
   truthy (viewstateGenerator (session st')) = true) /\
  (truthy (eventValidation (session st)) = true ->
   truthy (eventValidation (session st')) = true).
Proof.
  intros Hrun. split_and!.
  - apply (tok_crawl w viewstate) with fuel ms lb cur; [|done].
    intros res s. apply truthy_js_or.
  - apply (tok_crawl w viewstateGenerator) with fuel ms lb cur; [|done].
    intros res s. apply truthy_js_or.
  - apply (tok_crawl w eventValidation) with fuel ms lb cur; [|done].
    intros res s. apply truthy_js_or.
Qed.

Lemma tokens_never_cleared_witness :
  truthy (viewstate (session
    (default (mkSt ∅ Ex.prevSession 0 [] false)
       (crawl 3 Ex.worldFirstFails defaultMarkets (minusDays 1 Ex.today)
              Ex.today (mkSt ∅ Ex.prevSession 0 [] false))))) = true.
Proof.
  apply (tokens_never_cleared 3 Ex.worldFirstFails defaultMarkets
           (minusDays 1 Ex.today) Ex.today (mkSt ∅ Ex.prevSession 0 [] false)).
  - vm_compute. reflexivity.
  - reflexivity.
Defined.

(** ** What merging does to the store *)
Section absorb_store.
Implicit Types (dm : DataMap) (k d : jsstring) (ls : list jsstring).

Lemma lookup_ensure d dm k :
  ensure d dm !! k =
  if decide (d = k) then Some (default [] (dm !! d)) else dm !! k.
Proof.
  unfold ensure. destruct (has dm d) eqn:Hd.
  - apply has_true in Hd as [old Hold]. case_decide; [subst|done].
    by rewrite Hold.
  - apply has_false in Hd. case_decide; [subst|].
    + by rewrite lookup_insert_eq, Hd.
    + by rewrite lookup_insert_ne.
Qed.

Lemma lookup_fold_push d ls dm k :
  fold_left (fun dm nl => if nonBlank nl then push d (trim nl) dm else dm) ls dm
    !! k =
  if decide (d = k)
  then (fun old => old ++ map trim (List.filter nonBlank ls)) <$> dm !! d
  else dm !! k.
Proof.
  revert dm. induction ls as [|l ls IH]; intros dm; cbn [fold_left List.filter].
  - case_decide; [subst|done]. destruct (dm !! k); simpl; [|done].
    by rewrite app_nil_r.
  - rewrite IH. destruct (nonBlank l); [|done]. unfold push.
    case_decide; [subst|by rewrite lookup_alter_ne].
    rewrite lookup_alter_eq. destruct (dm !! k); simpl; [|done].
    by rewrite <- app_assoc.
Qed.

(** The bucket of the date after a merge of rows, and the other buckets. *)
Lemma lookup_absorb d rows dm k :
  rows <> [] ->
  absorb d rows dm !! k =
  if decide (d = k)
  then Some (default [] (dm !! d) ++
             map trim (List.filter nonBlank
                         (split Ch.lf (trim (Csv.stringify rows)))))
  else dm !! k.
Proof.
  intros Hrows. unfold absorb. destruct rows as [|r rows]; [done|].
  cbn [length Nat.ltb Nat.leb]. rewrite lookup_fold_push, !lookup_ensure.
  case_decide; [subst|done]. by rewrite decide_True.
Qed.

Lemma absorb_lookup_other d rows dm k :
  k <> d -> absorb d rows dm !! k = dm !! k.
Proof.
  intros Hne. destruct rows as [|r rows]; [done|].
  rewrite lookup_absorb by done. by rewrite decide_False.
Qed.
End absorb_store.

(** X4: merging the rows of a date leaves the bucket of every other date as
    it was and keeps the lines that the bucket of the date held, in their
    order, before the lines it adds; nothing is removed and nothing is
    compared with what is there, so merging the same rows twice adds their
    lines twice. *)
Theorem absorb_only_appends (d : jsstring) (rows : list (list jsstring))
    (dm : DataMap) :
  (forall k, k <> d -> absorb d rows dm !! k = dm !! k) /\
  exists new,
    default [] (absorb d rows dm !! d) = default [] (dm !! d) ++ new /\
    default [] (absorb d rows (absorb d rows dm) !! d) =
      default [] (dm !! d) ++ new ++ new.
Proof.
  split; [intros k; apply absorb_lookup_other|].
  destruct rows as [|r rows].
  - exists []. by rewrite !absorb_nil, !app_nil_r.
  - eexists. rewrite !lookup_absorb, !decide_True by done. simpl.
    split; [reflexivity|]. by rewrite <- app_assoc.
Qed.

Lemma absorb_only_appends_witness :
  absorb Ex.key [[Ex.key; str "M"; str "FV001"]] Ex.goodStore
    !! str "113/11/28" =
  Ex.goodStore !! str "113/11/28".
Proof.
  apply (absorb_only_appends Ex.key [[Ex.key; str "M"; str "FV001"]]
           Ex.goodStore).
  discriminate.
Defined.

(** ** What a run does to the dates it found in the file *)
Section keeps_stored.
Context (w : World).

Lemma processUnit_lookup_other d st m k :
  k <> d -> dataMap (processUnit w d st m) !! k = dataMap st !! k.
Proof.
  intros Hne. unfold processUnit.
  destruct (queryUnit _ _ _ _ _) as [[s' rows]|]; simpl; [|done].
  by apply absorb_lookup_other.
Qed.

Lemma processDate_lookup_other ms d st k :
  k <> d -> dataMap (processDate w ms d st) !! k = dataMap st !! k.
Proof.
  intros Hne. unfold processDate. revert st.
  induction ms as [|m ms IH]; intros st; simpl; [done|].
  by rewrite IH, processUnit_lookup_other.
Qed.

Lemma crawl_keeps_stored fuel ms lb cur st st' k :
  crawl fuel w ms lb cur st = Some st' ->
  has (dataMap st) k = true ->
  dataMap st' !! k = dataMap st !! k.
Proof.
  revert cur st. induction fuel as [|fuel IH]; intros cur st; simpl.
  - destruct (Date_geb cur lb); [done|]. by intros [= <-].
  - destruct (Date_geb cur lb); [|by intros [= <-]].
    destruct (has (dataMap st) (getRocDate cur)) eqn:Hcur.
    + apply IH.
    + intros Hrun Hk.
      assert (k <> getRocDate cur) as Hne by congruence.
      apply IH in Hrun; [|by apply has_processDate_mono].
      by rewrite Hrun, processDate_lookup_other.
Qed.
End keeps_stored.

(** X5: a run of the incremental crawler leaves the lines of every date that
    it read from the file exactly as they were: such a date gets no new line,
    loses none, and is a key of the dataset at the end. *)
Theorem run_keeps_stored_dates (fuel : nat) (w : World) (now1 now2 : Date)
    (file : File) (r : Run) (k : jsstring) :
  main fuel w now1 now2 file = Some r ->
  has (load file) k = true ->
  run_dataMap r !! k = load file !! k /\ has (run_dataMap r) k = true.
Proof.
  unfold main. destruct (initial w) as [response|].
  - destruct (crawl _ _ _ _ _ _) as [st'|] eqn:Hrun; [|done].
    intros [= <-] Hk. simpl.
    pose proof (crawl_keeps_stored _ _ _ _ _ _ _ k Hrun Hk) as Heq.
    simpl in Heq. split; [done|].
    apply has_true. rewrite Heq. by apply has_true.
  - by intros [= <-] Hk.
Qed.

Lemma run_keeps_stored_dates_witness :
  has (run_dataMap
         (default (mkRun None [] ∅)
            (main 16 Ex.worldFirstFails Ex.today Ex.today Ex.storedFile)))
      Ex.key = true.
Proof.
  apply (run_keeps_stored_dates 16 Ex.worldFirstFails Ex.today Ex.today
           Ex.storedFile).
  - vm_compute. reflexivity.
  - vm_compute. reflexivity.
Defined.

(** ** The history crawler *)
Section history.
Context (w : World).
Implicit Types (st : History.St) (ms : list Market) (d c : jsstring).

Lemma History_units_processUnit d st m :
  History.units (History.processUnit w d st m) = History.units st ++ [(d, m)].
Proof.
  unfold History.processUnit.
  destruct (queryUnit _ _ _ _ _) as [[s' rows]|]; done.
Qed.

Lemma History_units_fold ms d st :
  History.units (fold_left (History.processUnit w d) ms st) =
  History.units st ++ map (pair d) ms.
Proof.
  revert st. induction ms as [|m ms IH]; intros st; simpl.
  - by rewrite app_nil_r.
  - rewrite IH, History_units_processUnit. by rewrite <- app_assoc.
Qed.

Lemma History_file_processUnit d st m c :
  History.file st = Some c ->
  exists suffix, History.file (History.processUnit w d st m) = Some (c ++ suffix).
Proof.
  intros Hc. unfold History.processUnit.
  destruct (queryUnit _ _ _ _ _) as [[s' rows]|]; simpl.
  - destruct (0 <? length rows)%nat.
    + eexists. unfold appendFileSync. by rewrite Hc.
    + exists []. by rewrite app_nil_r.
  - exists []. by rewrite app_nil_r.
Qed.

Lemma History_file_fold ms d st c :
  History.file st = Some c ->
  exists suffix,
    History.file (fold_left (History.processUnit w d) ms st) = Some (c ++ suffix).
Proof.
  revert st c. induction ms as [|m ms IH]; intros st c Hc; simpl.
  - exists []. by rewrite app_nil_r.
  - destruct (History_file_processUnit d st m c Hc) as [s1 H1].
    destruct (IH _ _ H1) as [s2 H2]. exists (s1 ++ s2).
    by rewrite H2, <- app_assoc.
Qed.

Lemma History_file_crawl fuel ms e cur st st' c :
  History.crawl fuel w ms e cur st = Some st' ->
  History.file st = Some c ->
  exists suffix, History.file st' = Some (c ++ suffix).
Proof.
  revert cur st c. induction fuel as [|fuel IH]; intros cur st c; simpl.
  - destruct (Date_geb cur e); [done|]. intros [= <-] Hc.
    exists []. by rewrite app_nil_r.
  - destruct (Date_geb cur e); cycle 1.
    { intros [= <-] Hc. exists []. by rewrite app_nil_r. }
    intros Hrun Hc.
    destruct (History_file_fold ms (getRocDate cur) st c Hc) as [s1 H1].
    destruct (IH _ _ _ Hrun H1) as [s2 H2]. exists (s1 ++ s2).
    by rewrite H2, <- app_assoc.
Qed.

(** The history crawler queries the dates that the planner yields against
    an empty store: every day of the range. *)
Lemma History_crawl_plan fuel ms e cur st :
  match plan fuel ∅ e cur with
  | Some dates =>
      exists st', History.crawl fuel w ms e cur st = Some st' /\
                  History.units st' = History.units st ++ unitsOf ms dates
  | None => History.crawl fuel w ms e cur st = None
  end.
Proof.
  revert cur st. induction fuel as [|fuel IH]; intros cur st; simpl.
  - destruct (Date_geb cur e); [done|]. exists st. by rewrite app_nil_r.
  - destruct (Date_geb cur e); cycle 1.
    { exists st. by rewrite app_nil_r. }
    specialize (IH (prevDay cur)
                  (fold_left (History.processUnit w (getRocDate cur)) ms st)).
    destruct (plan fuel ∅ e (prevDay cur)) as [rest|]; [|done].
    destruct IH as (st' & Hrun & Hunits). exists st'. split; [done|].
    assert (has ∅ (getRocDate cur) = false) as -> by (by apply has_false).
    by rewrite Hunits, History_units_fold, unitsOf_cons, app_assoc.
Qed.
End history.

Lemma length_unitsOf ms (dates : list (list N)) :
  length (unitsOf ms dates) = (length dates * length ms)%nat.
Proof.
  unfold unitsOf. induction dates as [|d dates IH]; simpl; [done|].
  by rewrite length_app, length_map, IH.
Qed.

Lemma history_range :
  exists dates,
    plan 1061 ∅ History.endDate History.startDate = Some dates /\
    length dates = 1061%nat /\
    hd_error dates = Some (str "113/11/26") /\
    last dates = Some (str "111/01/01") /\
    dates = map getRocDate (daysFrom 1061 History.startDate).
Proof.
  eexists. split; [vm_compute; reflexivity|].
  split_and!; vm_compute; reflexivity.
Qed.

(** X6: a run of the history crawler only adds to the file: what the file
    held, or the header row when there was no file, is the beginning of the
    file at the end of the run, whatever the source answers. *)
Theorem history_run_only_appends (fuel : nat) (w : World) (file0 f : File)
    (us : list (list N * Market)) :
  History.main fuel w file0 = Some (f, us) ->
  exists suffix, f = Some (default headerRow file0 ++ suffix).
Proof.
  unfold History.main.
  set (file1 := match file0 with Some _ => file0 | None => _ end).
  assert (file1 = Some (default headerRow file0)) as Hfile1 by (by destruct file0).
  destruct (initial w) as [response|].
  - destruct (History.crawl _ _ _ _ _ _) as [st'|] eqn:Hrun; [|done].
    intros [= <- _].
    by apply (History_file_crawl w _ _ _ _ _ _ _ Hrun).
  - intros [= <- _]. exists []. by rewrite app_nil_r.
Qed.

Lemma history_run_only_appends_witness :
  (exists suffix,
     fst (default (None, [])
            (History.main 1061 Ex.worldFirstFails Ex.storedFile)) =
     Some (default headerRow Ex.storedFile ++ suffix)) /\
  fst (default (None, [])
         (History.main 1061 Ex.worldFirstFails Ex.storedFile)) =
  Some (default headerRow Ex.storedFile ++ Csv.stringify Ex.historyRows).
Proof.
  split; [|vm_compute; reflexivity].
  apply (history_run_only_appends 1061 Ex.worldFirstFails Ex.storedFile _
           (snd (default (None, [])
                   (History.main 1061 Ex.worldFirstFails Ex.storedFile)))).
  vm_compute. reflexivity.
Defined.

(** X7: when the initial request succeeds, a run of the history crawler with
    fuel for 1061 days ends and queries every market of the catalog for each
    of the 1061 days from 113/11/26 down to 111/01/01, in that order: the
    dates queried are the keys of the start day and of the 1060 days before
    it, one after the other; no day is passed over, whatever the file
    holds. *)
Theorem history_run_queries_whole_range (w : World) (file0 : File)
    (response : Response) :
  initial w = Some response ->
  exists f dates,
    History.main 1061 w file0 =
      Some (f, unitsOf (detectMarkets (data response)) dates) /\
    length dates = 1061%nat /\
    hd_error dates = Some (str "113/11/26") /\
    last dates = Some (str "111/01/01") /\
    length (unitsOf (detectMarkets (data response)) dates) =
      (1061 * length (detectMarkets (data response)))%nat /\
    dates = map getRocDate (daysFrom 1061 History.startDate).
Proof.
  intros Hinit. unfold History.main. rewrite Hinit.
  destruct history_range as (dates & Hplan & Hlen & Hhd & Hlast & Hdates).
  set (file1 := match file0 with Some _ => file0 | None => _ end).
  pose proof (History_crawl_plan w 1061 (detectMarkets (data response))
                History.endDate History.startDate
                (History.mkSt file1 (initSession response) 0 [])) as H.
  rewrite Hplan in H. destruct H as (st' & -> & Hunits). simpl in Hunits.
  exists (History.file st'), dates. rewrite Hunits.
  split_and!; auto. by rewrite length_unitsOf, Hlen.
Qed.

Lemma history_run_queries_whole_range_witness :
  exists f dates,
    History.main 1061 Ex.worldFailing None =
      Some (f, unitsOf (detectMarkets (data (mkResponse None Ex.emptyPage))) dates) /\
    length dates = 1061%nat /\
    hd_error dates = Some (str "113/11/26") /\
    last dates = Some (str "111/01/01") /\
    length (unitsOf (detectMarkets (data (mkResponse None Ex.emptyPage))) dates) =
      (1061 * length (detectMarkets (data (mkResponse None Ex.emptyPage))))%nat /\
    dates = map getRocDate (daysFrom 1061 History.startDate).
Proof.
  apply (history_run_queries_whole_range Ex.worldFailing None
           (mkResponse None Ex.emptyPage)).
  reflexivity.
Defined.

(** ** The window of the incremental run *)
Section window.
Implicit Types (a b d cur lb : Date).

Lemma dayOrd_inj a b :
  validDate a -> validDate b -> dayOrd a = dayOrd b ->
  getFullYear a = getFullYear b /\ getMonth a = getMonth b /\
  getDate a = getDate b.
Proof.
  unfold validDate, dayOrd. intros (Hma & Hda & _) (Hmb & Hdb & _).
  pose proof (daysInMonth_bounds (getFullYear a) (getMonth a)).
  pose proof (daysInMonth_bounds (getFullYear b) (getMonth b)). lia.
Qed.

(** No valid day lies between a day and the day before it. *)
Lemma dayOrd_between a b :
  validDate a -> validDate b -> dayOrd a < dayOrd b ->
  dayOrd a <= dayOrd (prevDay b).
Proof.
  unfold validDate, prevDay, dayOrd. intros (Hma & Hda & _) (Hmb & Hdb & _) Hlt.
  pose proof (daysInMonth_bounds (getFullYear a) (getMonth a)).
  destruct (Z.ltb_spec 1 (getDate b)); simpl; [lia|].
  destruct (Z.ltb_spec 0 (getMonth b)); simpl; [|lia].
  pose proof (daysInMonth_bounds (getFullYear b) (getMonth b - 1)).
  destruct (Z.eq_dec (getFullYear a * 12 + getMonth a)
                     (getFullYear b * 12 + getMonth b - 1)) as [E|E]; [|lia].
  assert (getFullYear a = getFullYear b) as Hy by lia.
  assert (getMonth a = getMonth b - 1) as Hm by lia.
  rewrite Hy, Hm in Hda. lia.
Qed.

Lemma stamp_prevDay_lt a : validDate a -> stamp (prevDay a) < stamp a.
Proof.
  intros Ha. pose proof (dayOrd_prevDay a Ha) as Hlt. unfold stamp.
  assert (getTimeOfDay (prevDay a) = getTimeOfDay a) as ->; [|lia].
  unfold prevDay. by repeat destruct (_ <? _).
Qed.

Lemma getTimeOfDay_prevDay a : getTimeOfDay (prevDay a) = getTimeOfDay a.
Proof. unfold prevDay. by repeat destruct (_ <? _). Qed.

Lemma stamp_prevDay_mono a b :
  validDate a -> validDate b -> stamp a <= stamp b ->
  stamp (prevDay a) <= stamp (prevDay b).
Proof.
  intros Ha Hb Hle. unfold stamp in *. rewrite !getTimeOfDay_prevDay.
  pose proof Ha as (_ & _ & Hta). pose proof Hb as (_ & _ & Htb).
  destruct (Z.lt_trichotomy (dayOrd a) (dayOrd b)) as [Hlt | [Heq | Hgt]].
  - pose proof (dayOrd_between a b Ha Hb Hlt).
    pose proof (dayOrd_prevDay a Ha). lia.
  - destruct (dayOrd_inj a b Ha Hb Heq) as (Hy & Hm & Hd).
    assert (dayOrd (prevDay a) = dayOrd (prevDay b)) as ->; [|lia].
    unfold prevDay. rewrite Hy, Hm, Hd. by repeat destruct (_ <? _).
  - lia.
Qed.

Lemma minusDays_succ k d : minusDays (S k) d = minusDays k (prevDay d).
Proof. unfold minusDays. apply Nat.iter_succ_r. Qed.

Lemma minusDays_S k d : minusDays (S k) d = prevDay (minusDays k d).
Proof. reflexivity. Qed.

Lemma stamp_minusDays_mono k a b :
  validDate a -> validDate b -> stamp a <= stamp b ->
  stamp (minusDays k a) <= stamp (minusDays k b).
Proof.
  intros Ha Hb Hle. induction k as [|k IH]; [done|].
  rewrite !minusDays_S.
  apply stamp_prevDay_mono; auto; by apply minusDays_valid.
Qed.


(** The fifteenth day before the first clock reading is before the lower
    bound, which is fourteen days before the second reading. *)
Lemma window_ends now1 now2 :
  validDate now1 -> validDate now2 -> stamp now1 <= stamp now2 ->
  Date_geb (minusDays 15 now1) (minusDays 14 now2) = false.
Proof.
  intros H1 H2 Hle. unfold Date_geb. apply Z.leb_gt.
  pose proof (stamp_minusDays_mono 14 now1 now2 H1 H2 Hle) as Hmono.
  pose proof (stamp_prevDay_lt (minusDays 14 now1) (minusDays_valid 14 now1 H1))
    as Hlt.
  rewrite (minusDays_S 14 now1).
  revert Hmono Hlt. generalize (minusDays 14 now1) (minusDays 14 now2).
  intros a b. lia.
Qed.

Lemma window_inside now k :
  validDate now -> (k <= 14)%nat ->
  Date_geb (minusDays k now) (minusDays 14 now) = true.
Proof.
  intros Hnow Hk. unfold Date_geb. apply Z.leb_le.
  assert (forall j, stamp (minusDays (j + k) now) <= stamp (minusDays k now))
    as Hdown.
  { induction j as [|j IH]; [done|].
    pose proof (stamp_prevDay_lt (minusDays (j + k) now)
                  (minusDays_valid _ now Hnow)) as Hlt.
    change (S j + k)%nat with (S (j + k)). rewrite minusDays_S.
    revert IH Hlt. generalize (minusDays (j + k) now) (minusDays k now).
    intros a b. lia. }
  specialize (Hdown (14 - k)%nat).
  by replace (14 - k + k)%nat with 14%nat in Hdown by lia.
Qed.

Context (w : World).

Lemma crawl_fuel_enough fuel k ms lb cur st :
  (k <= fuel)%nat -> Date_geb (minusDays k cur) lb = false ->
  exists st', crawl fuel w ms lb cur st = Some st'.
Proof.
  revert k cur st. induction fuel as [|fuel IH]; intros k cur st Hk Hend; simpl.
  - assert (k = 0%nat) as -> by lia. change (minusDays 0 cur) with cur in Hend.
    rewrite Hend. by eexists.
  - destruct (Date_geb cur lb) eqn:Hge; [|by eexists].
    destruct k as [|k]; [change (minusDays 0 cur) with cur in Hend; congruence|].
    rewrite minusDays_succ in Hend.
    destruct (has (dataMap st) (getRocDate cur)); apply (IH k); auto; lia.
Qed.

Lemma plan_length fuel dm lb cur (dates : list (list N)) :
  plan fuel dm lb cur = Some dates -> (length dates <= fuel)%nat.
Proof.
  revert cur dates. induction fuel as [|fuel IH]; intros cur dates; simpl.
  - destruct (Date_geb cur lb); [done|]. intros [= <-]. simpl. lia.
  - destruct (Date_geb cur lb); [|intros [= <-]; simpl; lia].
    destruct (plan fuel dm lb (prevDay cur)) as [rest|] eqn:E; [|done].
    apply IH in E. intros [= <-]. destruct (has dm _); simpl; lia.
Qed.

(** Against an empty store the planner yields one date for each day of the
    window. *)
Lemma plan_empty_full k fuel lb cur :
  (forall j, (j <= k)%nat -> Date_geb (minusDays j cur) lb = true) ->
  Date_geb (minusDays (S k) cur) lb = false ->
  (S k <= fuel)%nat ->
  exists dates, plan fuel ∅ lb cur = Some dates /\ length dates = S k.
Proof.
  revert fuel cur. induction k as [|k IH]; intros fuel cur Hin Hend Hfuel.
  - destruct fuel as [|fuel]; [lia|]. simpl.
    assert (Date_geb cur lb = true) as -> by (apply (Hin 0%nat); lia).
    change (minusDays 1 cur) with (prevDay cur) in Hend.
    assert (has ∅ (getRocDate cur) = false) as -> by (by apply has_false).
    destruct fuel; simpl; rewrite Hend; by eexists.
  - destruct fuel as [|fuel]; [lia|]. simpl.
    assert (Date_geb cur lb = true) as -> by (apply (Hin 0%nat); lia).
    destruct (IH fuel (prevDay cur)) as (rest & -> & Hlen).
    + intros j Hj. rewrite <- minusDays_succ. apply Hin. lia.
    + by rewrite <- minusDays_succ.
    + lia.
    + eexists. split; [reflexivity|].
      assert (has ∅ (getRocDate cur) = false) as -> by (by apply has_false).
      simpl. by rewrite Hlen.
Qed.
(** Against an empty store the planner yields the keys of the days of the
    window, from the first day backwards. *)
Lemma plan_empty_dates k fuel lb cur :
  (forall j, (j <= k)%nat -> Date_geb (minusDays j cur) lb = true) ->
  Date_geb (minusDays (S k) cur) lb = false ->
  (S k <= fuel)%nat ->
  plan fuel ∅ lb cur = Some (map getRocDate (daysFrom (S k) cur)).
Proof.
  revert fuel cur. induction k as [|k IH]; intros fuel cur Hin Hend Hfuel.
  - destruct fuel as [|fuel]; [lia|]. cbn [plan daysFrom map].
    assert (Date_geb cur lb = true) as -> by (apply (Hin 0%nat); lia).
    change (minusDays 1 cur) with (prevDay cur) in Hend.
    assert (has ∅ (getRocDate cur) = false) as -> by (by apply has_false).
    destruct fuel; cbn [plan]; by rewrite Hend.
  - destruct fuel as [|fuel]; [lia|].
    change (plan (S fuel) ∅ lb cur)
      with (if Date_geb cur lb
            then match plan fuel ∅ lb (prevDay cur) with
                 | Some rest =>
                     Some (if has ∅ (getRocDate cur) then rest
                           else getRocDate cur :: rest)
                 | None => None
                 end
            else Some []).
    assert (Date_geb cur lb = true) as -> by (apply (Hin 0%nat); lia).
    rewrite (IH fuel (prevDay cur)).
    + by assert (has ∅ (getRocDate cur) = false) as ->
        by (by apply has_false).
    + intros j Hj. rewrite <- minusDays_succ. apply Hin. lia.
    + by rewrite <- minusDays_succ.
    + lia.
Qed.
End window.

(** X8: when the two clock readings of a run are valid and the second is not
    before the first, fifteen turns of the loop are enough for the run to
    end, and it queries at most fifteen dates, each with every market; when
    the two readings are the same and there is no file, it queries exactly
    today and the fourteen days before, in that order, each with every
    market. *)
Theorem incremental_window_is_fifteen_days (w : World) (now1 now2 : Date)
    (file : File) :
  validDate now1 -> validDate now2 -> stamp now1 <= stamp now2 ->
  exists r,
    main 15 w now1 now2 file = Some r /\
    forall response, initial w = Some response ->
      (length (run_units r) <= 15 * length (detectMarkets (data response)))%nat /\
      (now1 = now2 -> file = None ->
       length (run_units r) = (15 * length (detectMarkets (data response)))%nat) /\
      (exists dates,
         run_units r = unitsOf (detectMarkets (data response)) dates /\
         (length dates <= 15)%nat) /\
      (now1 = now2 -> file = None ->
       run_units r =
         unitsOf (detectMarkets (data response))
                 (map getRocDate (daysFrom 15 now1))).
Proof.
  intros H1 H2 Hle. unfold main.
  destruct (initial w) as [response|] eqn:Hinit; [|by eexists].
  set (st0 := mkSt (load file) (initSession response) 0 [] false).
  set (ms := detectMarkets (data response)).
  destruct (crawl_fuel_enough w 15 15 ms (minusDays 14 now2) now1 st0)
    as [st' Hrun]; [lia | by apply window_ends |].
  rewrite Hrun. eexists. split; [reflexivity|].
  intros ? [= <-]. cbn [run_units].
  destruct (crawl_plan w 15 ms (minusDays 14 now2) (load file) now1 st0 st')
    as (dates & Hplan & Hunits); [done | done | done |].
  unfold st0 in Hunits. cbn [units dataMap app] in Hunits, Hplan.
  rewrite Hunits, length_unitsOf. split_and!.
  - apply plan_length in Hplan. apply Nat.mul_le_mono_r. done.
  - intros -> ->. change (load None) with (∅ : DataMap) in Hplan.
    destruct (plan_empty_full 14 15 (minusDays 14 now2) now2)
      as (dates' & Hplan' & Hlen);
      [intros j Hj; by apply window_inside | by apply window_ends | lia |].
    rewrite Hplan' in Hplan. injection Hplan as <-. by rewrite Hlen.
  - exists dates. split; [done|]. by apply plan_length in Hplan.
  - intros -> ->. change (load None) with (∅ : DataMap) in Hplan.
    rewrite (plan_empty_dates 14 15 (minusDays 14 now2) now2) in Hplan;
      [| intros j Hj; by apply window_inside | by apply window_ends | lia].
    by injection Hplan as <-.
Qed.

Lemma incremental_window_is_fifteen_days_witness :
  exists r,
    main 15 Ex.worldFailing Ex.today Ex.today None = Some r /\
    length (run_units r) = 30%nat.
Proof.
  destruct (incremental_window_is_fifteen_days Ex.worldFailing Ex.today
              Ex.today None) as (r & Hr & Hlen).
  - unfold validDate; simpl. split_and!; lia || (vm_compute; discriminate).
  - unfold validDate; simpl. split_and!; lia || (vm_compute; discriminate).
  - lia.
  - exists r. split; [done|].
    destruct (Hlen _ eq_refl) as (_ & Heq & _). apply Heq; reflexivity.
Defined.

(** ** No day twice *)
Section nodup.
Implicit Types (dm : DataMap) (cur lb : Date) (dates : list jsstring).

(** The dates planned are keys of valid days not after the first day of the
    window, each once. *)
Lemma plan_days fuel dm lb cur dates :
  validDate cur -> plan fuel dm lb cur = Some dates ->
  Forall (fun k => exists day, validDate day /\ dayOrd day <= dayOrd cur /\
                               k = getRocDate day) dates /\
  NoDup dates.
Proof.
  revert cur dates. induction fuel as [|fuel IH]; intros cur dates Hcur; simpl.
  - destruct (Date_geb cur lb); [done|]. intros [= <-].
    split; constructor.
  - destruct (Date_geb cur lb); [|intros [= <-]; split; constructor].
    destruct (plan fuel dm lb (prevDay cur)) as [rest|] eqn:E; [|done].
    apply IH in E as [Hdays Hnd]; [|by apply prevDay_valid].
    pose proof (dayOrd_prevDay cur Hcur) as Hprev.
    assert (Forall (fun k => exists day, validDate day /\
                       dayOrd day <= dayOrd cur /\ k = getRocDate day) rest)
      as Hdays'.
    { eapply Forall_impl; [exact Hdays|].
      intros k (day & Hv & Hle & ->). exists day. split_and!; auto. lia. }
    intros [= <-]. destruct (has dm (getRocDate cur)); [done|]. split.
    + constructor; [|done]. exists cur. split_and!; auto. lia.
    + constructor; [|done]. intros Hin.
      rewrite Forall_forall in Hdays.
      destruct (Hdays _ Hin) as (day & Hv & Hle & Heq).
      apply getRocDate_dayOrd in Heq; auto. lia.
Qed.

Lemma NoDup_unitsOf (ms : list Market) dates :
  NoDup ms -> NoDup dates -> NoDup (unitsOf ms dates).
Proof.
  intros Hms. unfold unitsOf.
  induction 1 as [|d dates Hd Hnd IH]; simpl; [constructor|].
  apply NoDup_app. split_and!; [| |done].
  - apply NoDup_fmap_2; [|done]. by intros m1 m2 [= ->].
  - intros u [m [-> _]]%list_elem_of_fmap Hin.
    apply list_elem_of_In, in_flat_map in Hin as (d' & Hd' & Hin).
    apply list_elem_of_In, list_elem_of_fmap in Hin as [m' [[= -> _] _]].
    apply Hd. by apply list_elem_of_In.
Qed.
End nodup.

(** X9: in a run of the loop that starts on a valid day no date is handled
    twice: the queries sent are those of pairwise different dates, each date
    with every market of the catalog, and when the catalog has no market
    twice no pair of date and market is queried twice. *)
Theorem no_date_queried_twice (fuel : nat) (w : World) (ms : list Market)
    (lb cur : Date) (S : DataMap) (s : Session) (st' : St) :
  validDate cur ->
  crawl fuel w ms lb cur (mkSt S s 0 [] false) = Some st' ->
  (exists dates, NoDup dates /\ units st' = unitsOf ms dates) /\
  (NoDup ms -> NoDup (units st')).
Proof.
  intros Hcur Hrun.
  destruct (crawl_plan w fuel ms lb S cur (mkSt S s 0 [] false) st')
    as (dates & Hplan & Hunits); [done | done | done |].
  cbn [units app] in Hunits.
  destruct (plan_days _ _ _ _ _ Hcur Hplan) as [_ Hnd].
  split; [by exists dates|].
  intros Hms. rewrite Hunits. by apply NoDup_unitsOf.
Qed.

Lemma no_date_queried_twice_witness :
  NoDup (units (default (mkSt ∅ Ex.prevSession 0 [] false)
                  (crawl 3 Ex.worldFirstFails defaultMarkets
                         (minusDays 1 Ex.today) Ex.today
                         (mkSt ∅ Ex.prevSession 0 [] false)))).
Proof.
  apply (no_date_queried_twice 3 Ex.worldFirstFails defaultMarkets
           (minusDays 1 Ex.today) Ex.today ∅ Ex.prevSession).
  - unfold validDate; simpl. split_and!; lia || (vm_compute; discriminate).
  - vm_compute. reflexivity.
  - apply NoDup_ListNoDup. repeat constructor; simpl; intuition discriminate.
Defined.

(** X10: two valid dates have the same key exactly when they are the same
    calendar day; the time of day plays no part. *)
Theorem rocDate_key_identifies_day (a b : Date) :
  validDate a -> validDate b ->
  (getRocDate a = getRocDate b <->
   getFullYear a = getFullYear b /\ getMonth a = getMonth b /\
   getDate a = getDate b).
Proof.
  intros Ha Hb. split.
  - by apply getRocDate_inj.
  - intros (Hy & Hm & Hd). by apply getRocDate_same_day.
Qed.

Lemma rocDate_key_identifies_day_witness :
  getRocDate Ex.today = getRocDate (mkDate 2024 10 29 5000).
Proof.
  apply (rocDate_key_identifies_day Ex.today (mkDate 2024 10 29 5000)).
  - unfold validDate; simpl. split_and!; lia || (vm_compute; discriminate).
  - unfold validDate; simpl. split_and!; lia || (vm_compute; discriminate).
  - done.
Defined.

(** ** Reading a file *)
Section load_more.
Implicit Types (dm : DataMap) (l h : jsstring) (ls : list jsstring).

Lemma loadLine_noEmptyBucket dm l :
  noEmptyBucket dm -> noEmptyBucket (loadLine dm l).
Proof.
  intros H. unfold loadLine. destruct (_ <? _); [|done].
  apply map_Forall_lookup. intros i ls'. rewrite lookup_push_ensure.
  case_decide.
  - intros [= <-]. by destruct (default [] _).
  - intros Hi. apply (map_Forall_lookup_1 _ dm i ls' H Hi).
Qed.

Lemma load_noEmptyBucket (file : File) : noEmptyBucket (load file).
Proof.
  unfold load. destruct file as [content|]; [|apply map_Forall_empty].
  generalize (drop 1 (List.filter nonBlank (split Ch.lf content))).
  intros ls. assert (noEmptyBucket (∅ : DataMap)) as H0 by apply map_Forall_empty.
  revert H0. generalize (∅ : DataMap).
  induction ls as [|l ls IH]; intros dm Hdm; simpl; [done|].
  apply IH; auto using loadLine_noEmptyBucket.
Qed.

Lemma filter_noEmptyBucket dm :
  noEmptyBucket dm ->
  filter (fun kv : list N * list (list N) => kv.2 <> []) dm = dm.
Proof.
  intros H. apply map_filter_id. intros k ls' Hk. simpl.
  apply (map_Forall_lookup_1 _ dm k ls' H Hk).
Qed.

Lemma split_join ls :
  ls <> [] -> forallb noLf ls = true -> split Ch.lf (join [Ch.lf] ls) = ls.
Proof.
  induction ls as [|x [|y ls'] IH]; intros Hne Hls; [done| |].
  - simpl in Hls. apply andb_true_iff in Hls as [Hx _]. simpl.
    by apply split_no_sep.
  - cbn [forallb] in Hls. apply andb_true_iff in Hls as [Hx Hls].
    change (join [Ch.lf] (x :: y :: ls'))
      with (x ++ Ch.lf :: join [Ch.lf] (y :: ls')).
    rewrite split_line by done. by rewrite IH.
Qed.

Lemma loadLine_trim dm l : loadLine dm (trim l) = loadLine dm l.
Proof. unfold loadLine. by rewrite trim_idem. Qed.

Lemma nonBlank_trim l : nonBlank (trim l) = nonBlank l.
Proof. unfold nonBlank. by rewrite trim_idem. Qed.

Lemma fold_loadLine_trim ls dm :
  fold_left loadLine (map trim ls) dm = fold_left loadLine ls dm.
Proof.
  revert dm. induction ls as [|l ls IH]; intros dm; simpl; [done|].
  by rewrite loadLine_trim, IH.
Qed.

Lemma filter_nonBlank_trim ls :
  map trim (List.filter nonBlank ls) = List.filter nonBlank (map trim ls).
Proof.
  induction ls as [|l ls IH]; simpl; [done|]. rewrite nonBlank_trim.
  destruct (nonBlank l); simpl; by rewrite IH.
Qed.

(** What is read from the lines of a file depends on the trimmed lines
    only. *)
Lemma load_lines_trim ls dm :
  fold_left loadLine (drop 1 (List.filter nonBlank ls)) dm =
  fold_left loadLine (drop 1 (List.filter nonBlank (map trim ls))) dm.
Proof.
  rewrite <- filter_nonBlank_trim, <- fold_loadLine_trim.
  by destruct (List.filter nonBlank ls).
Qed.
End load_more.

(** X11: whatever the file holds, the dataset read from it files every line
    under the first field of the line and has no empty bucket; writing it and
    reading the file written gives the same dataset, and writing that again
    gives the same file: one run brings any file to a form that later runs
    leave alone. *)
Theorem load_flush_is_stable (file old old' : File) :
  wellKeyed (load file) /\ noEmptyBucket (load file) /\
  load (flush (load file) old) = load file /\
  flush (load (flush (load file) old)) old' = flush (load file) old.
Proof.
  assert (load (flush (load file) old) = load file) as Hload.
  { rewrite load_flush by apply load_wellKeyed.
    apply filter_noEmptyBucket, load_noEmptyBucket. }
  split_and!; [apply load_wellKeyed | apply load_noEmptyBucket | done |].
  by rewrite Hload, !flush_eq.
Qed.

(** X12: the first line of a file, when it is not blank, is passed over as
    the header whatever it holds: two files that differ in that line only are
    read as the same dataset, so a row standing there is lost, and a file of
    one line is read as the empty dataset. *)
Theorem load_ignores_first_line (h h' body : jsstring) :
  noLf h = true -> nonBlank h = true ->
  noLf h' = true -> nonBlank h' = true ->
  load (Some (h ++ Ch.lf :: body)) = load (Some (h' ++ Ch.lf :: body)) /\
  load (Some h) = ∅.
Proof.
  intros Hh Hb Hh' Hb'. unfold load. split.
  - rewrite !split_line by done. cbn [List.filter]. by rewrite Hb, Hb'.
  - rewrite split_no_sep by done. cbn [List.filter]. by rewrite Hb.
Qed.

Lemma load_ignores_first_line_witness :
  load (Some (str "113/11/29,M,FV1,a" ++ Ch.lf :: str "113/11/28,M,FV2,b")) =
  load (Some (str "Date,Market,Code,Name" ++ Ch.lf :: str "113/11/28,M,FV2,b")).
Proof.
  apply (load_ignores_first_line (str "113/11/29,M,FV1,a")
           (str "Date,Market,Code,Name") (str "113/11/28,M,FV2,b"));
    reflexivity.
Defined.

(** X13: every line is trimmed before it is filed, and blank lines are
    dropped: two files whose lines are the same once trimmed are read as the
    same dataset, so the carriage returns of a file with CRLF line ends leave
    no trace. *)
Theorem load_trims_lines (ls ls' : list jsstring) :
  forallb noLf ls = true -> forallb noLf ls' = true ->
  map trim ls = map trim ls' ->
  load (Some (join [Ch.lf] ls)) = load (Some (join [Ch.lf] ls')).
Proof.
  intros Hls Hls' Heq.
  destruct ls as [|l ls]; destruct ls' as [|l' ls']; try done.
  unfold load. rewrite !split_join by done.
  by rewrite load_lines_trim, Heq, <- load_lines_trim.
Qed.

Lemma load_trims_lines_witness :
  load (Some (join [Ch.lf] [str "Date,Market" ++ [Ch.cr];
                            str "113/11/29,M,FV1" ++ [Ch.cr]; [Ch.cr]])) =
  load (Some (join [Ch.lf] [str "Date,Market"; str "113/11/29,M,FV1"; []])).
Proof.
  apply (load_trims_lines
           [str "Date,Market" ++ [Ch.cr]; str "113/11/29,M,FV1" ++ [Ch.cr]; [Ch.cr]]
           [str "Date,Market"; str "113/11/29,M,FV1"; []]);
    reflexivity.
Defined.

(** ** The lines that a run files *)
Section lines.
Implicit Types (dm : DataMap) (d k l s : jsstring) (r ls : list jsstring) (c : N).

(** *** Texts on one line *)
Lemma noLf_app a b : noLf (a ++ b) = noLf a && noLf b.
Proof. apply forallb_app. Qed.

Lemma noLf_escapeQuotes f : noLf f = true -> noLf (Csv.escapeQuotes f) = true.
Proof.
  unfold Csv.escapeQuotes. induction f as [|c f IH]; [done|].
  intros [Hc Hf]%andb_true_iff. cbn [flat_map]. rewrite noLf_app, IH by done.
  destruct (c =? Ch.dquote)%N; [done|]. unfold noLf. simpl. by rewrite Hc.
Qed.

Lemma noLf_field f : noLf f = true -> noLf (Csv.field f) = true.
Proof.
  intros Hf. unfold Csv.field. destruct (Csv.needsQuote f); [|done].
  change (Ch.dquote :: Csv.escapeQuotes f ++ [Ch.dquote])
    with ([Ch.dquote] ++ Csv.escapeQuotes f ++ [Ch.dquote]).
  by rewrite !noLf_app, noLf_escapeQuotes.
Qed.

Lemma join_cons (sep x : jsstring) (r : list jsstring) :
  r <> [] -> join sep (x :: r) = x ++ sep ++ join sep r.
Proof. by destruct r. Qed.

Lemma noLf_join r : forallb noLf r = true -> noLf (join [Ch.comma] r) = true.
Proof.
  induction r as [|x r IH]; [done|].
  intros [Hx Hr]%andb_true_iff. destruct r as [|y r]; [done|].
  rewrite join_cons, !noLf_app, Hx, IH by done. done.
Qed.

Lemma noLf_recordBody r : forallb noLf r = true -> noLf (recordBody r) = true.
Proof.
  intros Hr. unfold recordBody. apply noLf_join.
  induction r as [|x r IH]; [done|].
  simpl in Hr. apply andb_true_iff in Hr as [Hx Hr]. simpl.
  by rewrite noLf_field, IH.
Qed.

Lemma stringify_lines (rows : list (list jsstring)) :
  Csv.stringify rows =
  concat (map (fun line => line ++ [Ch.lf]) (map recordBody rows)).
Proof. unfold Csv.stringify. by rewrite map_map. Qed.

(** *** Texts that trimming leaves alone *)
Lemma trimStart_fixed l : trim l = l -> trimStart l = l.
Proof.
  intros H. rewrite <- H. unfold trim.
  apply trimEnd_keeps_head, trimStart_idem.
Qed.

Lemma trimEnd_fixed l : trim l = l -> trimEnd l = l.
Proof.
  intros H. pose proof (trimStart_fixed l H) as Hs.
  unfold trim in H. by rewrite Hs in H.
Qed.

Lemma solid_head l :
  l <> [] -> trim l = l -> exists a l', l = a :: l' /\ is_ws a = false.
Proof.
  intros Hne H. destruct l as [|a l']; [done|].
  exists a, l'. split; [done|]. by apply (trimStart_cons_fixed a l'), trimStart_fixed.
Qed.

Lemma solid_last l : l <> [] -> trim l = l -> endsSolid l.
Proof.
  intros Hne H. apply trimEnd_fixed in H. unfold trimEnd in H.
  destruct (rev l) as [|b u] eqn:E.
  - apply (f_equal (@rev N)) in E. rewrite rev_involutive in E. done.
  - assert (trimStart (b :: u) = b :: u) as Hb.
    { apply (f_equal (@rev N)) in H. by rewrite rev_involutive, E in H. }
    apply trimStart_cons_fixed in Hb. exists (rev u), b. split; [|done].
    apply (f_equal (@rev N)) in E. by rewrite rev_involutive in E.
Qed.

Lemma trimEnd_solid l : endsSolid l -> trimEnd l = l.
Proof.
  intros (pre & b & -> & Hb). unfold trimEnd.
  rewrite rev_app_distr. simpl. rewrite Hb. simpl. by rewrite rev_involutive.
Qed.

Lemma trimEnd_lf l : trimEnd (l ++ [Ch.lf]) = trimEnd l.
Proof. unfold trimEnd. by rewrite rev_app_distr. Qed.

Lemma endsSolid_app p l : endsSolid l -> endsSolid (p ++ l).
Proof.
  intros (pre & b & -> & Hb). exists (p ++ pre), b. by rewrite app_assoc.
Qed.

(** *** The text of several lines, trimmed and split *)
Lemma split_lines_last ls l :
  forallb noLf ls = true -> noLf l = true ->
  split Ch.lf (concat (map (fun line => line ++ [Ch.lf]) ls) ++ l) = ls ++ [l].
Proof.
  intros Hls Hl. induction ls as [|x ls IH]; simpl.
  - by apply split_no_sep.
  - simpl in Hls. apply andb_true_iff in Hls as [Hx Hls].
    rewrite <- !app_assoc. simpl. by rewrite split_line, IH.
Qed.

Lemma filter_all {A} (p : A -> bool) (xs : list A) :
  forallb p xs = true -> List.filter p xs = xs.
Proof.
  induction xs as [|x xs IH]; simpl; [done|].
  intros [-> Hxs]%andb_true_iff. by rewrite IH.
Qed.

Lemma map_trim_fixed ls :
  forallb (fun l => bool_decide (trim l = l)) ls = true -> map trim ls = ls.
Proof.
  induction ls as [|l ls IH]; simpl; [done|].
  intros [Hl Hls]%andb_true_iff. apply bool_decide_eq_true in Hl.
  by rewrite Hl, IH.
Qed.

Lemma lineOK_trim k l : lineOK k l = true -> trim l = l.
Proof. by intros (H & _)%lineOK_spec. Qed.

Lemma lineOK_nonempty k l : lineOK k l = true -> l <> [].
Proof. intros (_ & _ & Hi & _)%lineOK_spec ->. simpl in Hi. lia. Qed.

(** The lines that merging finds in the text of well-formed lines are these
    lines. *)
Lemma absorb_finds_lines d ls :
  ls <> [] -> forallb (lineOK d) ls = true ->
  map trim (List.filter nonBlank
              (split Ch.lf (trim (concat (map (fun line => line ++ [Ch.lf]) ls)))))
  = ls.
Proof.
  intros Hne Hok.
  assert (forall l, In l ls -> lineOK d l = true) as Hall
    by (by apply forallb_forall).
  set (text := concat _).
  assert (trimStart text = text) as Hstart.
  { unfold text. destruct ls as [|l0 rest]; [done|].
    destruct (solid_head l0) as (a & l0' & -> & Ha).
    - apply (lineOK_nonempty d), Hall. by left.
    - apply (lineOK_trim d), Hall. by left.
    - simpl. by rewrite Ha. }
  destruct (exists_last Hne) as (init & l & Heq).
  assert (text = (concat (map (fun line => line ++ [Ch.lf]) init) ++ l) ++ [Ch.lf])
    as Htext.
  { unfold text. rewrite Heq, map_app, concat_app. simpl.
    by rewrite app_nil_r, app_assoc. }
  assert (lineOK d l = true) as Hl.
  { apply Hall. rewrite Heq. apply in_or_app. right. by left. }
  assert (forallb (lineOK d) init = true) as Hinit.
  { rewrite Heq, forallb_app in Hok. by apply andb_true_iff in Hok as [? _]. }
  unfold trim. rewrite Hstart, Htext, trimEnd_lf, trimEnd_solid; cycle 1.
  { apply endsSolid_app, solid_last;
      [by apply (lineOK_nonempty d) | by apply (lineOK_trim d)]. }
  rewrite split_lines_last; cycle 1.
  { eapply forallb_impl; [apply lineOK_noLf | exact Hinit]. }
  { by apply (lineOK_noLf d). }
  rewrite <- Heq, filter_all.
  - apply map_trim_fixed. eapply forallb_impl; [|exact Hok].
    intros x Hx. apply bool_decide_eq_true. by apply (lineOK_trim d).
  - eapply forallb_impl; [apply lineOK_nonBlank | exact Hok].
Qed.

Lemma absorb_lookup_lines d (rows : list (list jsstring)) dm :
  rows <> [] -> forallb (lineOK d) (map recordBody rows) = true ->
  absorb d rows dm !! d = Some (default [] (dm !! d) ++ map recordBody rows).
Proof.
  intros Hne Hok. rewrite lookup_absorb, decide_True by done.
  rewrite stringify_lines, (absorb_finds_lines d); [done | | done].
  by destruct rows.
Qed.

(** *** Date keys *)
Lemma keyChar_cases c :
  keyChar c = true ->
  (c = 45 \/ c = 47 \/ c = 48 \/ c = 49 \/ c = 50 \/ c = 51 \/ c = 52 \/
   c = 53 \/ c = 54 \/ c = 55 \/ c = 56 \/ c = 57)%N.
Proof.
  unfold keyChar, Ch.minus, Ch.slash.
  rewrite !orb_true_iff, andb_true_iff, !N.leb_le, !N.eqb_eq. lia.
Qed.

Lemma keyChar_plain c :
  keyChar c = true ->
  is_ws c = false /\ (c =? Ch.comma)%N = false /\ (c =? Ch.lf)%N = false /\
  (c =? Ch.dquote)%N = false /\ (c =? Ch.squote)%N = false.
Proof.
  intros H. apply keyChar_cases in H.
  repeat destruct H as [-> | H]; try subst c; by vm_compute.
Qed.

Lemma keyChar_digit n : (n < 10)%N -> keyChar (Ch.zero + n) = true.
Proof.
  intros Hn. unfold keyChar, Ch.zero.
  assert ((48 <=? 48 + n)%N = true) as -> by (apply N.leb_le; lia).
  assert ((48 + n <=? 57)%N = true) as -> by (apply N.leb_le; lia). done.
Qed.

Lemma digits_fuel_small f n : Forall (fun x => (x < 10)%N) (digits_fuel f n).
Proof.
  revert n. induction f as [|f IH]; intros n; simpl; [constructor|].
  destruct (N.ltb_spec n 10).
  - by repeat constructor.
  - apply Forall_app. split; [apply IH|]. repeat constructor.
    by apply N.mod_lt.
Qed.

Lemma numToString_keyChars z : forallb keyChar (numToString z) = true.
Proof.
  unfold numToString.
  assert (forallb keyChar
            (map (fun x => (Ch.zero + x)%N) (digits (Z.to_N (Z.abs z)))) = true)
    as Hds.
  { apply forallb_forall. intros c [x [<- Hx]]%in_map_iff.
    apply keyChar_digit.
    pose proof (digits_fuel_small (S (N.to_nat (N.log2 (Z.to_N (Z.abs z)))))
                  (Z.to_N (Z.abs z))) as Hsmall.
    rewrite Forall_forall in Hsmall. apply Hsmall. by apply list_elem_of_In. }
  destruct (z <? 0); [|done]. simpl. by rewrite Hds.
Qed.

Lemma padStart_keyChars n s :
  forallb keyChar s = true -> forallb keyChar (padStart n Ch.zero s) = true.
Proof.
  intros Hs. unfold padStart. rewrite forallb_app, Hs, andb_true_r.
  induction (n - length s)%nat as [|j IH]; [done|]. simpl. by rewrite IH.
Qed.

Lemma getRocDate_keyChars (day : Date) :
  getRocDate day <> [] /\ forallb keyChar (getRocDate day) = true.
Proof.
  unfold getRocDate. split.
  - intros H. apply (f_equal (@length N)) in H.
    rewrite !length_app in H. simpl in H. lia.
  - rewrite !forallb_app, !padStart_keyChars, numToString_keyChars
      by apply numToString_keyChars. done.
Qed.

(** *** The line of a row whose first cell is a date key *)
Lemma indexOf_key d rest :
  forallb keyChar d = true ->
  indexOf Ch.comma (d ++ Ch.comma :: rest) = Z.of_nat (length d).
Proof.
  induction d as [|c d IH]; intros Hd; [done|].
  simpl in Hd. apply andb_true_iff in Hd as [Hc Hd].
  apply keyChar_plain in Hc as (_ & Hc & _).
  cbn [app indexOf length]. rewrite Hc, IH by done.
  destruct (Z.ltb_spec (Z.of_nat (length d)) 0); lia.
Qed.

Lemma removeQuotes_key d : forallb keyChar d = true -> removeQuotes d = d.
Proof.
  intros Hd. unfold removeQuotes. apply filter_all.
  eapply forallb_impl; [|exact Hd]. intros c Hc.
  apply keyChar_plain in Hc as (_ & _ & _ & Hq & Hs). by rewrite Hs, Hq.
Qed.

Lemma field_key d : forallb keyChar d = true -> Csv.field d = d.
Proof.
  intros Hd. unfold Csv.field.
  assert (Csv.needsQuote d = false) as ->; [|done].
  unfold Csv.needsQuote. induction d as [|c d IH]; [done|].
  simpl in Hd. apply andb_true_iff in Hd as [Hc Hd].
  apply keyChar_plain in Hc as (_ & Hcomma & Hlf & Hq & _).
  simpl. by rewrite Hq, Hcomma, Hlf, IH.
Qed.

Lemma noLf_key d : forallb keyChar d = true -> noLf d = true.
Proof.
  intros Hd. unfold noLf. eapply forallb_impl; [|exact Hd]. intros c Hc.
  apply keyChar_plain in Hc as (_ & _ & Hlf & _). by rewrite Hlf.
Qed.

Lemma field_end f : trim f = f -> Csv.field f = [] \/ endsSolid (Csv.field f).
Proof.
  intros Hf. unfold Csv.field. destruct (Csv.needsQuote f).
  - right. exists (Ch.dquote :: Csv.escapeQuotes f), Ch.dquote. done.
  - destruct f as [|c f]; [by left|]. right. by apply solid_last.
Qed.

Lemma join_snoc_end (r : list jsstring) x :
  exists p, join [Ch.comma] (r ++ [x]) = p ++ x /\ (p = [] \/ endsSolid p).
Proof.
  induction r as [|y r (p & Hp & Hend)]; simpl app.
  - exists []. by split; [|left].
  - rewrite join_cons by (by destruct r). rewrite Hp.
    exists (y ++ [Ch.comma] ++ p). split; [by rewrite <- !app_assoc|].
    right. destruct Hend as [-> | Hend].
    + rewrite app_nil_r. by exists y, Ch.comma.
    + by rewrite app_assoc; apply endsSolid_app.
Qed.

Lemma recordBody_lineOK d (mid : list jsstring) lastc :
  d <> [] -> forallb keyChar d = true ->
  forallb noLf mid = true -> noLf lastc = true -> trim lastc = lastc ->
  lineOK d (recordBody (d :: mid ++ [lastc])) = true.
Proof.
  intros Hne Hd Hmid Hlast Htrim.
  assert (recordBody (d :: mid ++ [lastc]) =
          d ++ Ch.comma :: join [Ch.comma] (map Csv.field (mid ++ [lastc])))
    as Hline.
  { unfold recordBody. cbn [map]. rewrite join_cons, field_key by
      (done || (rewrite map_app; by destruct (map Csv.field mid))). done. }
  apply lineOK_spec. split_and!.
  - rewrite Hline. unfold trim.
    destruct d as [|a d']; [done|].
    assert (is_ws a = false) as Ha.
    { simpl in Hd. apply andb_true_iff in Hd as [Hc _].
      by apply keyChar_plain in Hc as (? & _). }
    cbn [app trimStart]. rewrite Ha. apply trimEnd_solid.
    rewrite map_app. cbn [map].
    destruct (join_snoc_end (map Csv.field mid) (Csv.field lastc))
      as (p & -> & Hp).
    assert (a :: d' ++ Ch.comma :: p ++ Csv.field lastc =
            (((a :: d') ++ [Ch.comma]) ++ p) ++ Csv.field lastc) as ->
      by (by rewrite <- !app_assoc).
    assert (endsSolid (((a :: d') ++ [Ch.comma]) ++ p)) as Hpre.
    { destruct Hp as [-> | Hp].
      - rewrite app_nil_r. by exists (a :: d'), Ch.comma.
      - by apply endsSolid_app. }
    destruct (field_end lastc Htrim) as [-> | Hend].
    + by rewrite app_nil_r.
    + by apply endsSolid_app.
  - apply noLf_recordBody. cbn [forallb]. rewrite forallb_app. cbn [forallb].
    by rewrite noLf_key, Hmid, Hlast.
  - rewrite Hline, indexOf_key by done. lia.
  - unfold keyOf. rewrite Hline, indexOf_key by done.
    unfold substring0. rewrite Nat2Z.id, take_app_length.
    by apply removeQuotes_key.
Qed.

Lemma noLf_nth i (tr : list jsstring) :
  forallb noLf tr = true -> noLf (nth i tr []) = true.
Proof.
  revert i. induction tr as [|x tr IH]; intros i Htr; [by destruct i|].
  simpl in Htr. apply andb_true_iff in Htr as [Hx Htr].
  destruct i; simpl; auto.
Qed.

(** Every row that the extractor stores under a date key is written on a
    line that is read back under that key. *)
Lemma parseTable_lineOK (day : Date) (m : Market) (trs : list (list jsstring)) :
  noLf (txt m) = true -> forallb (forallb noLf) trs = true ->
  forallb (lineOK (getRocDate day))
          (map recordBody (parseTable (getRocDate day) m trs)) = true.
Proof.
  intros Hm Htrs. destruct (getRocDate_keyChars day) as [Hne Hkey].
  rewrite parseTable_filter. induction trs as [|tr trs IH]; [done|].
  simpl in Htrs. apply andb_true_iff in Htrs as [Htr Htrs].
  cbn [List.filter]. destruct (qualifies tr); [|by apply IH].
  cbn [map forallb]. rewrite IH, andb_true_r by done.
  unfold toRow.
  apply (recordBody_lineOK (getRocDate day)
           [txt m; trim (nth 0 tr []); trim (nth 1 tr []); trim (nth 2 tr []);
            trim (nth 3 tr []); trim (nth 4 tr []); trim (nth 5 tr []);
            trim (nth 6 tr [])] (trim (nth 7 tr []))); auto.
  - cbn [forallb]. by rewrite Hm, !noLf_trim by (by apply noLf_nth).
  - by apply noLf_trim, noLf_nth.
  - apply trim_idem.
Qed.
End lines.

(** *** The invariant of a run *)
Section run_invariant.
Context (w : World).
Hypothesis Hcells :
  forall n rq res, post w n rq = Some res -> cellsOnOneLine (data res) = true.
Implicit Types (dm : DataMap) (st : St) (ms : list Market).

Lemma absorb_invariant (day : Date) (m : Market) (trs : list (list jsstring)) dm :
  noLf (txt m) = true -> forallb (forallb noLf) trs = true ->
  wellKeyed dm /\ noEmptyBucket dm ->
  wellKeyed (absorb (getRocDate day) (parseTable (getRocDate day) m trs) dm) /\
  noEmptyBucket (absorb (getRocDate day) (parseTable (getRocDate day) m trs) dm).
Proof.
  intros Hm Htrs [Hwk Hne].
  pose proof (parseTable_lineOK day m trs Hm Htrs) as Hok.
  destruct (parseTable (getRocDate day) m trs) as [|r rows] eqn:E;
    [by rewrite absorb_nil|].
  split; apply map_Forall_lookup; intros i ls Hi.
  - destruct (decide (i = getRocDate day)) as [->|Hne'].
    + rewrite absorb_lookup_lines in Hi by done. injection Hi as <-.
      cbv beta. rewrite forallb_app. apply andb_true_iff.
      split; [by apply wellKeyed_bucket | exact Hok].
    + rewrite absorb_lookup_other in Hi by done.
      apply (map_Forall_lookup_1 _ dm i ls Hwk Hi).
  - destruct (decide (i = getRocDate day)) as [->|Hne'].
    + rewrite absorb_lookup_lines in Hi by done. injection Hi as <-.
      by destruct (default [] _).
    + rewrite absorb_lookup_other in Hi by done.
      apply (map_Forall_lookup_1 _ dm i ls Hne Hi).
Qed.

Lemma processUnit_invariant (day : Date) st m :
  noLf (txt m) = true ->
  wellKeyed (dataMap st) /\ noEmptyBucket (dataMap st) ->
  wellKeyed (dataMap (processUnit w (getRocDate day) st m)) /\
  noEmptyBucket (dataMap (processUnit w (getRocDate day) st m)).
Proof.
  intros Hm Hinv. unfold processUnit, queryUnit.
  destruct (post w _ _) as [res|] eqn:Hpost; simpl; [|done].
  apply absorb_invariant; auto. apply (Hcells _ _ _ Hpost).
Qed.

Lemma processDate_invariant (day : Date) ms st :
  forallb (fun m => noLf (txt m)) ms = true ->
  wellKeyed (dataMap st) /\ noEmptyBucket (dataMap st) ->
  wellKeyed (dataMap (processDate w ms (getRocDate day) st)) /\
  noEmptyBucket (dataMap (processDate w ms (getRocDate day) st)).
Proof.
  unfold processDate. revert st.
  induction ms as [|m ms IH]; intros st Hms Hinv; simpl; [done|].
  simpl in Hms. apply andb_true_iff in Hms as [Hm Hms].
  apply IH; auto using processUnit_invariant.
Qed.

Lemma crawl_invariant fuel ms (lb cur : Date) st st' :
  forallb (fun m => noLf (txt m)) ms = true ->
  crawl fuel w ms lb cur st = Some st' ->
  wellKeyed (dataMap st) /\ noEmptyBucket (dataMap st) ->
  wellKeyed (dataMap st') /\ noEmptyBucket (dataMap st').
Proof.
  intros Hms. revert cur st. induction fuel as [|fuel IH]; intros cur st; simpl.
  - destruct (Date_geb cur lb); [done|]. by intros [= <-].
  - destruct (Date_geb cur lb); [|by intros [= <-]].
    destruct (has (dataMap st) (getRocDate cur)).
    + apply IH.
    + intros Hrun Hinv. eapply IH; eauto using processDate_invariant.
Qed.
End run_invariant.

(** X14: when no cell of the table and no market name holds a line feed,
    merging the rows found for a date key adds to the bucket of the date one
    line for each row, the line that csv-stringify writes for the row, in
    the order of the rows; each of these lines is read back under the same
    date. *)
Theorem absorb_files_one_line_per_row (day : Date) (m : Market)
    (trs : list (list jsstring)) (dm : DataMap) :
  noLf (txt m) = true -> forallb (forallb noLf) trs = true ->
  parseTable (getRocDate day) m trs <> [] ->
  absorb (getRocDate day) (parseTable (getRocDate day) m trs) dm
    !! getRocDate day =
    Some (default [] (dm !! getRocDate day) ++
          map recordBody (parseTable (getRocDate day) m trs)) /\
  forallb (lineOK (getRocDate day))
          (map recordBody (parseTable (getRocDate day) m trs)) = true.
Proof.
  intros Hm Htrs Hne.
  pose proof (parseTable_lineOK day m trs Hm Htrs) as Hok.
  split; [by apply absorb_lookup_lines | done].
Qed.

Lemma absorb_files_one_line_per_row_witness :
  absorb (getRocDate Ex.today)
         (parseTable (getRocDate Ex.today) Ex.market1 [Ex.onionRow]) ∅
    !! getRocDate Ex.today =
    Some (default [] ((∅ : DataMap) !! getRocDate Ex.today) ++
          map recordBody
              (parseTable (getRocDate Ex.today) Ex.market1 [Ex.onionRow])).
Proof.
  apply (absorb_files_one_line_per_row Ex.today Ex.market1 [Ex.onionRow] ∅).
  - reflexivity.
  - reflexivity.
  - vm_compute. discriminate.
Defined.

(** X15: when no cell of the tables that the source returns and no market
    name holds a line feed, the file that a run of the incremental crawler
    leaves is read back as exactly the dataset the run ended with: every line
    is found under the date it was filed under, no date is lost and none is
    added, whatever the file held before and whichever queries failed. *)
Theorem run_file_reads_back (fuel : nat) (w : World) (now1 now2 : Date)
    (file : File) (r : Run) :
  sourceOnOneLine w ->
  main fuel w now1 now2 file = Some r ->
  load (run_file r) = run_dataMap r /\
  wellKeyed (run_dataMap r) /\ noEmptyBucket (run_dataMap r).
Proof.
  intros [Hcells Hnames]. unfold main.
  destruct (initial w) as [response|] eqn:Hinit.
  - destruct (crawl _ _ _ _ _ _) as [st'|] eqn:Hrun; [|done].
    intros [= <-]. cbn [run_file run_dataMap].
    destruct (crawl_invariant w Hcells _ _ _ _ _ _ (Hnames _ eq_refl) Hrun)
      as [Hwk Hne].
    { cbn [dataMap]. split; [apply load_wellKeyed | apply load_noEmptyBucket]. }
    split_and!; [|done|done].
    rewrite load_flush by done. by apply filter_noEmptyBucket.
  - intros [= <-]. cbn [run_file run_dataMap].
    split_and!; [done | apply load_wellKeyed | apply load_noEmptyBucket].
Qed.

Lemma run_file_reads_back_witness :
  load (run_file
          (default (mkRun None [] ∅)
             (main 16 Ex.worldFirstFails Ex.today Ex.today Ex.storedFile))) =
  run_dataMap
    (default (mkRun None [] ∅)
       (main 16 Ex.worldFirstFails Ex.today Ex.today Ex.storedFile)).
Proof.
  apply (run_file_reads_back 16 Ex.worldFirstFails Ex.today Ex.today
           Ex.storedFile).
  - split.
    + intros n rq res. simpl. destruct (n =? 1)%nat; [|done].
      by intros [= <-].
    + intros response [= <-]. reflexivity.
  - vm_compute. reflexivity.
Defined.

(** ** What the extractor reads of a row *)
Section extract_more.
Implicit Types (d : jsstring) (m : Market) (tr : list jsstring).

Lemma nth_take_lt i n tr : (i < n)%nat -> nth i (take n tr) [] = nth i tr [].
Proof.
  revert i n. induction tr as [|x tr IH]; intros i n Hi.
  - rewrite take_nil. done.
  - destruct n as [|n]; [lia|]. destruct i as [|i]; [done|].
    simpl. apply IH. lia.
Qed.

Lemma qualifies_take_trim tr : qualifies (map trim (take 8 tr)) = qualifies tr.
Proof.
  unfold qualifies. rewrite length_map, length_take, nth_map_trim, trim_idem.
  rewrite nth_take_lt by lia. f_equal.
  destruct (Nat.leb_spec 8 (length tr)), (Nat.leb_spec 8 (8 `min` length tr));
    try done; lia.
Qed.

Lemma toRow_take_trim d m tr : toRow d m (map trim (take 8 tr)) = toRow d m tr.
Proof.
  unfold toRow. rewrite !nth_map_trim, !trim_idem.
  by rewrite !nth_take_lt by lia.
Qed.
End extract_more.

(** X16: of a row of the table the extractor reads the first eight cells
    only and each of them trimmed: cutting every row after its eighth cell
    and trimming the cells beforehand changes nothing.  Every row stored has
    ten fields, the date first and the name of the market second, and no more
    rows are stored than the table has. *)
Theorem extract_reads_eight_trimmed_cells (d : jsstring) (m : Market)
    (trs : list (list jsstring)) :
  parseTable d m (map (fun tr => map trim (take 8 tr)) trs) = parseTable d m trs /\
  Forall (fun r => length r = 10%nat /\ nth 0 r [] = d /\ nth 1 r [] = txt m)
         (parseTable d m trs) /\
  (length (parseTable d m trs) <= length trs)%nat.
Proof.
  split_and!.
  - induction trs as [|tr trs IH]; [done|].
    cbn [map]. rewrite !parseTable_cons, qualifies_take_trim, toRow_take_trim.
    by rewrite IH.
  - induction trs as [|tr trs IH]; [constructor|].
    rewrite parseTable_cons. destruct (qualifies tr); [|done].
    constructor; [by split_and! | done].
  - induction trs as [|tr trs IH]; [done|].
    rewrite parseTable_cons. destruct (qualifies tr); simpl; lia.
Qed.

(** ** The dashboard reads the keys of the crawler *)
Section convertDate.
Implicit Types (c : N) (s r : jsstring) (z : Z) (ds : list N).

Lemma digit_char_facts c :
  (48 <= c <= 57)%N ->
  is_ws c = false /\ (c =? Ch.minus)%N = false /\ (c =? 43)%N = false /\
  (c =? 120)%N = false /\ (c =? 88)%N = false /\
  App.digitOf 10 c = Some (Z.of_N c - 48).
Proof.
  intros Hc.
  assert (keyChar c = true) as Hk.
  { unfold keyChar.
    assert ((48 <=? c)%N = true) as -> by (apply N.leb_le; lia).
    assert ((c <=? 57)%N = true) as -> by (apply N.leb_le; lia). done. }
  apply keyChar_plain in Hk as (Hws & _).
  unfold App.digitOf, Ch.minus. split_and!; try done;
    try (apply N.eqb_neq; lia).
  assert ((48 <=? c)%N = true) as -> by (apply N.leb_le; lia).
  assert ((c <=? 57)%N = true) as -> by (apply N.leb_le; lia). done.
Qed.

Lemma leadingDigits_all s :
  Forall (fun c => (48 <= c <= 57)%N) s ->
  App.leadingDigits 10 s = map (fun c => Z.of_N c - 48) s.
Proof.
  induction 1 as [|c s Hc _ IH]; [done|].
  apply digit_char_facts in Hc as (_ & _ & _ & _ & _ & Hd).
  cbn [App.leadingDigits map]. by rewrite Hd, IH.
Qed.

(** A text of decimal digits is parsed as the number it writes, with or
    without a minus sign before it. *)
Lemma parseInt_decimal s :
  s <> [] -> Forall (fun c => (48 <= c <= 57)%N) s ->
  App.parseInt s = App.ofZ (1 * App.radixValue 10 (App.leadingDigits 10 s)) /\
  App.parseInt (Ch.minus :: s) =
    App.ofZ (-1 * App.radixValue 10 (App.leadingDigits 10 s)).
Proof.
  intros Hne Hs. destruct s as [|c r]; [done|].
  pose proof Hs as Hall.
  apply Forall_cons in Hs as [Hc Hr].
  destruct (digit_char_facts c Hc) as (Hws & Hminus & Hplus & _ & _ & Hd).
  assert (match r with
          | x :: _ => ((c =? Ch.zero) && ((x =? 120) || (x =? 88)))%N
          | [] => false
          end = false) as Hhex.
  { destruct r as [|x r']; [done|].
    apply Forall_cons in Hr as [Hx _].
    destruct (digit_char_facts x Hx) as (_ & _ & _ & Hx1 & Hx2 & _).
    by rewrite Hx1, Hx2, andb_false_r. }
  assert (App.leadingDigits 10 (c :: r) =
          (Z.of_N c - 48) :: App.leadingDigits 10 r) as Hlead.
  { cbn [App.leadingDigits]. by rewrite Hd. }
  split.
  - unfold App.parseInt. cbn [trimStart]. rewrite Hws. cbv beta iota zeta.
    rewrite Hminus, Hplus. cbn [orb]. cbv beta iota zeta. rewrite Hhex.
    cbv beta iota zeta. by rewrite Hlead.
  - unfold App.parseInt. cbn [trimStart].
    change (is_ws Ch.minus) with false. cbv beta iota zeta.
    rewrite N.eqb_refl. cbn [orb]. cbv beta iota zeta. rewrite Hhex.
    cbv beta iota zeta. by rewrite Hlead.
Qed.

Lemma radixValue_digits ds acc :
  fold_left (fun a v => a * 10 + v)
            (map (fun c => Z.of_N c - 48) (map (fun x => (Ch.zero + x)%N) ds)) acc =
  acc * Z.of_N (pow10 (length ds)) + Z.of_N (digitsValue ds).
Proof.
  revert acc. induction ds as [|x ds IH]; intros acc.
  - simpl. lia.
  - cbn [map fold_left length pow10 digitsValue]. rewrite IH.
    unfold Ch.zero. rewrite !N2Z.inj_add, !N2Z.inj_mul.
    change (Z.of_N 48) with 48. change (Z.of_N 10) with 10. ring.
Qed.

Lemma digit_chars ds :
  Forall (fun x => (x < 10)%N) ds ->
  Forall (fun c => (48 <= c <= 57)%N) (map (fun x => (Ch.zero + x)%N) ds).
Proof.
  induction 1 as [|x ds Hx _ IH]; [constructor|].
  cbn [map]. constructor; [unfold Ch.zero; lia | done].
Qed.

Lemma parseInt_numToString z :
  Z.abs z <= App.maxSafe -> App.parseInt (numToString z) = App.Int z.
Proof.
  intros Hz. unfold numToString.
  destruct (digits_spec (Z.to_N (Z.abs z))) as [Hval Hsmall].
  pose proof (digits_length_pos (Z.to_N (Z.abs z))) as Hlen.
  set (ds := digits (Z.to_N (Z.abs z))) in *.
  destruct (parseInt_decimal (map (fun d => (Ch.zero + d)%N) ds)) as [Hpos Hneg].
  { destruct ds; [simpl in Hlen; lia | done]. }
  { by apply digit_chars. }
  rewrite leadingDigits_all in Hpos, Hneg by (by apply digit_chars).
  unfold App.radixValue in Hpos, Hneg.
  rewrite radixValue_digits, Hval in Hpos, Hneg.
  unfold App.ofZ in *.
  assert ((Z.abs z <=? App.maxSafe) = true) as Hsafe by (by apply Z.leb_le).
  destruct (Z.ltb_spec z 0).
  - rewrite Hneg. replace (-1 * _) with z by lia. by rewrite Hsafe.
  - rewrite Hpos. replace (1 * _) with z by lia. by rewrite Hsafe.
Qed.

Lemma lacks_slash_numToString z : lacks Ch.slash (numToString z) = true.
Proof.
  unfold numToString.
  assert (lacks Ch.slash
            (map (fun d => (Ch.zero + d)%N) (digits (Z.to_N (Z.abs z)))) = true)
    as Hds.
  { apply forallb_forall. intros c [x [<- _]]%in_map_iff.
    apply negb_true_iff, N.eqb_neq. unfold Ch.zero, Ch.slash. lia. }
  destruct (z <? 0); [|done]. simpl. by rewrite Hds.
Qed.

Lemma lacks_slash_padStart n s :
  lacks Ch.slash s = true -> lacks Ch.slash (padStart n Ch.zero s) = true.
Proof.
  intros Hs. unfold padStart, lacks. rewrite forallb_app.
  apply andb_true_iff. split; [|done].
  induction (n - length s)%nat as [|j IH]; [done|]. simpl. by rewrite IH.
Qed.

Lemma split_getRocDate (day : Date) :
  split Ch.slash (getRocDate day) =
  [ numToString (getFullYear day - 1911);
    padStart 2 Ch.zero (numToString (getMonth day + 1));
    padStart 2 Ch.zero (numToString (getDate day)) ].
Proof.
  unfold getRocDate. cbn [app].
  rewrite split_at_sep by apply lacks_slash_numToString.
  rewrite split_at_sep by apply lacks_slash_padStart, lacks_slash_numToString.
  by rewrite split_no_sep by apply lacks_slash_padStart, lacks_slash_numToString.
Qed.
End convertDate.

(** X17: the dashboard turns the key that the crawler writes for a day back
    into the date of that day: for every day of a year within the range of a
    JS date, the key of the day is converted into the Gregorian year, the
    month and the day as two digits each, joined by minus signs. *)
Theorem convertDate_inverts_rocDate (day : Date) :
  Z.abs (getFullYear day) <= 275760 ->
  App.convertDate (getRocDate day) =
  Some (numToString (getFullYear day) ++ [Ch.minus] ++
        padStart 2 Ch.zero (numToString (getMonth day + 1)) ++ [Ch.minus] ++
        padStart 2 Ch.zero (numToString (getDate day))).
Proof.
  intros Hy. unfold App.convertDate. rewrite split_getRocDate.
  cbn [length Nat.eqb nth]. rewrite parseInt_numToString
    by (unfold App.maxSafe; lia).
  cbn [App.plus]. unfold App.ofZ.
  replace (getFullYear day - 1911 + 1911) with (getFullYear day) by lia.
  assert ((Z.abs (getFullYear day) <=? App.maxSafe) = true) as ->
    by (apply Z.leb_le; unfold App.maxSafe; lia).
  done.
Qed.

Lemma convertDate_inverts_rocDate_witness :
  App.convertDate (getRocDate Ex.today) = Some (str "2024-11-29").
Proof.
  apply (convertDate_inverts_rocDate Ex.today). simpl. lia.
Defined.

(** ** The selection list of the dashboard *)
Section selection.
Implicit Types (options selected : list jsstring) (o x : jsstring).

Lemma toggleOption_elem selected o x :
  x ∈ App.toggleOption selected o <->
  (if decide (x = o) then o ∉ selected else x ∈ selected).
Proof.
  unfold App.toggleOption, App.includes. case_bool_decide as Hin.
  - rewrite list_elem_of_In, filter_In, <- list_elem_of_In,
      negb_true_iff, bool_decide_eq_false.
    case_decide; [subst|]; tauto.
  - rewrite elem_of_app, list_elem_of_singleton.
    case_decide; [subst|]; tauto.
Qed.

Lemma toggleOption_NoDup selected o :
  NoDup selected -> NoDup (App.toggleOption selected o).
Proof.
  intros Hnd. unfold App.toggleOption, App.includes. case_bool_decide as Hin.
  - apply NoDup_ListNoDup, List.NoDup_filter. by apply NoDup_ListNoDup.
  - apply NoDup_app. split_and!; [done | | apply NoDup_singleton].
    intros y Hy ->%list_elem_of_singleton. done.
Qed.

Lemma full_selection options selected :
  NoDup selected -> selected ⊆ options ->
  length selected = length options -> selected ≡ₚ options.
Proof.
  intros Hnd Hsub Hlen.
  apply submseteq_length_Permutation; [|lia].
  by apply NoDup_submseteq.
Qed.
End selection.

(** X18: a selection without duplicates that lies within the options stays
    so under both handlers of the list.  Clicking an option of the list flips
    that option and no other.  The button for all, which compares the two
    lengths only, then clears the selection exactly when every option is
    selected and selects all of them otherwise. *)
Theorem selection_stays_within_options (options selected : list jsstring)
    (o : jsstring) :
  NoDup options -> NoDup selected -> selected ⊆ options -> o ∈ options ->
  (NoDup (App.toggleOption selected o) /\
   App.toggleOption selected o ⊆ options /\
   (o ∈ App.toggleOption selected o <-> o ∉ selected) /\
   (forall x, x <> o -> (x ∈ App.toggleOption selected o <-> x ∈ selected))) /\
  (NoDup (App.toggleAll options selected) /\
   App.toggleAll options selected ⊆ options /\
   (selected ≡ₚ options -> App.toggleAll options selected = []) /\
   (~ selected ≡ₚ options -> App.toggleAll options selected = options)).
Proof.
  intros Hopts Hsel Hsub Ho. split; split_and!.
  - by apply toggleOption_NoDup.
  - intros x Hx. apply toggleOption_elem in Hx.
    case_decide; [by subst | by apply Hsub].
  - rewrite toggleOption_elem. by rewrite decide_True.
  - intros x Hx. rewrite toggleOption_elem. by rewrite decide_False.
  - unfold App.toggleAll. destruct (_ =? _)%nat; [constructor | done].
  - unfold App.toggleAll. destruct (_ =? _)%nat; [|done].
    intros x Hx. by apply elem_of_nil in Hx.
  - intros Hperm. unfold App.toggleAll.
    by rewrite (Permutation_length Hperm), Nat.eqb_refl.
  - intros Hnp. unfold App.toggleAll.
    destruct (Nat.eqb_spec (length selected) (length options)) as [Hlen|]; [|done].
    destruct Hnp. by apply full_selection.
Qed.

Lemma selection_stays_within_options_witness :
  App.toggleOption [str "a"] (str "b") ⊆ [str "a"; str "b"] /\
  App.toggleAll [str "a"; str "b"] [str "a"] = [str "a"; str "b"].
Proof.
  destruct (selection_stays_within_options [str "a"; str "b"] [str "a"]
              (str "b")) as [(_ & Hsub & _) (_ & _ & _ & Hall)].
  - apply NoDup_ListNoDup. repeat constructor; simpl; intuition discriminate.
  - apply NoDup_ListNoDup. repeat constructor; simpl; intuition discriminate.
  - intros x Hx. apply list_elem_of_In. apply list_elem_of_In in Hx.
    simpl in *. tauto.
  - apply list_elem_of_In. simpl. tauto.
  - split; [exact Hsub|]. reflexivity.
Defined.
